(** * Theorem2PDF: the pagination engine of [public/pdf-generator.js]

    A shallow embedding of [LatexPDFGenerator]: the page slicer
    [_computePageSlices], the assembler [_buildPdfFromSlices] and the
    driver [generatePDF], with the properties of the pagination that the
    specification states.

    Numbers.  Canvas pixels are produced by [Math.round] and [Math.floor]
    and are integers: they are modelled in [Z].  Lengths in points are
    JavaScript doubles.  A finite double is a rational number, and it is
    carried here as that number, in [Q]; the arithmetic of the geometry
    ([-], [*], [/] on lengths in points) rounds every result to the
    nearest double, ties to even, as IEEE 754 does ([round64]).  The
    exponent range of doubles is not modelled: results below 2^-1022 or
    above 2^1024 in magnitude, and the [Infinity] or [NaN] of a quotient
    by zero (0 in [Q]), are outside the model, and the theorems that
    depend on the value of [pxToPt] or of the capacity assume a canvas of
    positive width and a usable width other than zero.  DOM measurements
    and the raster scale, which only enter [Math.round], are read as
    exact rationals. *)

From Stdlib Require Import String ZArith QArith Qround Qabs Qpower Qreduction.
From Stdlib Require Import List Lia Lqa Bool.
From Stdlib Require DecimalString DecimalNat.
Import ListNotations.

#[local] Open Scope Z_scope.

(** * Data model *)

(** One entry of [cardRectsPx]: a card rectangle in canvas pixels. *)
Record Rect : Type := mkRect {
  topPx : Z;
  heightPx : Z
}.

(** [c.topPx + c.heightPx], the [cardBottomPx] of the source. *)
Definition cardBottomPx (c : Rect) : Z := topPx c + heightPx c.

(** One element of [slices]: the pixel range and the geometry it carries. *)
Record Slice : Type := mkSlice {
  yStartPx : Z;
  yEndPx : Z;
  usableWidthPt : Q;
  pxToPt : Q;
  margin : Q;
  usableHeightPt : Q
}.

(** The geometry every slice of one run carries
    ([usableWidthPt], [pxToPt], [margin], [usableHeightPt]). *)
Record Geometry : Type := mkGeometry {
  g_usableWidthPt : Q;
  g_pxToPt : Q;
  g_margin : Q;
  g_usableHeightPt : Q
}.

Definition slice_of (g : Geometry) (ys ye : Z) : Slice :=
  mkSlice ys ye (g_usableWidthPt g) (g_pxToPt g) (g_margin g)
          (g_usableHeightPt g).

(** What a JavaScript call can produce in this model: a value, an
    exception, or (for the fuelled loop only) exhaustion of the fuel. *)
Inductive JsError : Type :=
| Error (message : string)      (* [new Error(message)] *)
| TypeError                     (* property read on [undefined] *)
| Rejected (source : string).   (* a rejection raised by an external library *)

Inductive result (A : Type) : Type :=
| Ok (a : A)
| Throw (e : JsError)
| OutOfFuel.

Arguments Ok {A} a.
Arguments Throw {A} e.
Arguments OutOfFuel {A}.

(** * The page slicer: the packing loops of [_computePageSlices] *)

(** The variables the inner [while] reads and writes. *)
Record PageState : Type := mkPageState {
  pageStartPx : Z;
  usedPx : Z;
  lastCardBottomPx : Z;
  currentIndex : nat
}.

(** The inner [while (currentIndex < cardRectsPx.length)].  [rest] is
    [cardRectsPx] from [currentIndex] on, so its head is
    [cardRectsPx[currentIndex]] and the empty list is the loop's exit
    condition; the [else] branch is the [break]. *)
Fixpoint inner_loop (pageMaxPx : Z) (rest : list Rect) (st : PageState)
  : PageState :=
  match rest with
  | [] => st
  | c :: rest' =>
      let cardTopPx := topPx c in
      let cardBottomPx := topPx c + heightPx c in
      let pageStartPx' :=
        if usedPx st =? 0 then cardTopPx else pageStartPx st in
      let nextUsedPx := cardBottomPx - pageStartPx' in
      if nextUsedPx <=? pageMaxPx then
        inner_loop pageMaxPx rest'
          (mkPageState pageStartPx' nextUsedPx cardBottomPx
                       (S (currentIndex st)))
      else
        mkPageState pageStartPx' (usedPx st) (lastCardBottomPx st)
                    (currentIndex st)
  end.

(** The variables that live across iterations of the outer [while]. *)
Record SlicerState : Type := mkSlicerState {
  slices : list Slice;
  s_pageStartPx : Z;
  s_currentIndex : nat
}.

(** One iteration of the outer [while] body, entered with
    [currentIndex < cardRectsPx.length]: reset [usedPx], run the inner
    loop, then push either the packed slice or the forced slice of the
    "single card taller than a page" fallback.  Reading
    [cardRectsPx[currentIndex]] past the end yields [undefined], whose
    [.topPx] throws. *)
Definition outer_body (g : Geometry) (pageSliceHeightPx : Z)
    (cardRectsPx : list Rect) (s : SlicerState) : result SlicerState :=
  let pageMaxPx := pageSliceHeightPx in
  let st :=
    inner_loop pageMaxPx (skipn (s_currentIndex s) cardRectsPx)
      (mkPageState (s_pageStartPx s) 0 (s_pageStartPx s) (s_currentIndex s)) in
  if 0 <? usedPx st then
    Ok (mkSlicerState
          (slices s ++ [slice_of g (pageStartPx st) (lastCardBottomPx st)])
          (lastCardBottomPx st)
          (currentIndex st))
  else
    match nth_error cardRectsPx (currentIndex st) with
    | None => Throw TypeError
    | Some c =>
        let forced :=
          slice_of g (topPx c)
                   (topPx c + Z.min (heightPx c) pageSliceHeightPx) in
        Ok (mkSlicerState (slices s ++ [forced])
                          (yEndPx forced)
                          (S (currentIndex st)))
    end.

(** The outer [while (currentIndex < cardRectsPx.length)].  The recursion
    is on [fuel]; [outer_loop_fuel] shows that [length cardRectsPx]
    is always enough. *)
Fixpoint outer_loop (fuel : nat) (g : Geometry) (pageSliceHeightPx : Z)
    (cardRectsPx : list Rect) (s : SlicerState) : result (list Slice) :=
  if (s_currentIndex s <? length cardRectsPx)%nat then
    match fuel with
    | O => OutOfFuel
    | S fuel' =>
        match outer_body g pageSliceHeightPx cardRectsPx s with
        | Ok s' => outer_loop fuel' g pageSliceHeightPx cardRectsPx s'
        | Throw e => Throw e
        | OutOfFuel => OutOfFuel
        end
    end
  else Ok (slices s).

(** Lines 217-278: [slices = []], [pageStartPx = 0], [currentIndex = 0],
    the loops, [return slices]. *)
Definition pack_slices (g : Geometry) (pageSliceHeightPx : Z)
    (cardRectsPx : list Rect) : result (list Slice) :=
  outer_loop (length cardRectsPx) g pageSliceHeightPx cardRectsPx
             (mkSlicerState [] 0 0%nat).

(** * Geometry and measurement: the head of [_computePageSlices] *)

(** [this.options]; [colorMap] is cosmetic and left out. *)
Record Options : Type := mkOptions {
  pdfUnit : string;
  pdfFormat : string;
  pdfOrientation : string;
  filename : string;
  rasterScale : Q;
  pageMarginPt : Q;
  contentWidthPx : Q;
  blockSpacingPx : Q
}.

(** The defaults of the constructor. *)
Definition default_options : Options :=
  mkOptions "pt" "a4" "p" "extracted.pdf" (28 # 10) 28 820 24.

(** What [getBoundingClientRect()] returns for a card. *)
Record DOMRect : Type := mkDOMRect {
  r_top : Q;
  r_height : Q
}.

(** What [_computePageSlices] reads from the DOM: the wrapper's
    [getBoundingClientRect().top] and [scrollTop], and the rectangle of
    every card, in document order. *)
Record Measured : Type := mkMeasured {
  wrapperTop : Q;
  scrollTop : Q;
  cardRects : list DOMRect
}.

(** The canvas [html2canvas] produced. *)
Record Canvas : Type := mkCanvas {
  width : Z;
  height : Z
}.

(** [pdf.internal.pageSize] of [new jsPDF({unit, format, orientation})]:
    the library is not part of the repository, so the page size it reports
    is a parameter, [(getWidth(), getHeight())]. *)
Definition PageSizeOf : Type := string -> string -> string -> Q * Q.

(** ** Double arithmetic *)

(** For [0 < a], the exponent [e] with [2^e <= a < 2^(e+1)]. *)
Definition binade (a : Q) : Z :=
  let e0 := Z.log2 (Qnum a) - Z.log2 (Zpos (Qden a)) in
  if Qle_bool (2 ^ e0) a then e0 else e0 - 1.

(** The integer nearest to [q], halves to the even neighbour. *)
Definition round_nearest_even (q : Q) : Z :=
  let f := Qfloor q in
  match Qcompare (q - inject_Z f) (1 # 2) with
  | Lt => f
  | Gt => f + 1
  | Eq => if Z.even f then f else f + 1
  end.

(** The double nearest to [q]: 53 significant bits, round to nearest,
    ties to even. *)
Definition round64 (q : Q) : Q :=
  match Qnum q with
  | Z0 => 0
  | _ =>
      let a := Qabs q in
      let e := binade a - 52 in
      let m := round_nearest_even (a / 2 ^ e) in
      Qred ((if Qnum q <? 0 then -1 else 1) * inject_Z m * 2 ^ e)
  end.

(** A number literal or an integer read as a double, and the three
    operations of the geometry on doubles. *)
Definition js_number (x : Q) : Q := round64 x.

Definition js_sub (x y : Q) : Q := round64 (x - y).

Definition js_mul (x y : Q) : Q := round64 (x * y).

Definition js_div (x y : Q) : Q := round64 (x / y).

(** [Math.round]: the nearest integer, halves towards plus infinity. *)
Definition Math_round (x : Q) : Z := Qfloor (x + (1 # 2)).

(** [Math.floor]. *)
Definition Math_floor (x : Q) : Z := Qfloor x.

(** Lines 186-199: [usableWidthPt], [usableHeightPt], [pxToPt], with the
    margin, as the slices will carry them. *)
Definition geometry (pageSize : PageSizeOf) (o : Options) (bigCanvas : Canvas)
  : Geometry :=
  let pageWidthPt :=
    js_number (fst (pageSize (pdfUnit o) (pdfFormat o) (pdfOrientation o))) in
  let pageHeightPt :=
    js_number (snd (pageSize (pdfUnit o) (pdfFormat o) (pdfOrientation o))) in
  let margin := js_number (pageMarginPt o) in
  let usableWidthPt := js_sub pageWidthPt (js_mul 2 margin) in
  let usableHeightPt := js_sub pageHeightPt (js_mul 2 margin) in
  let pxToPt :=
    js_div usableWidthPt (js_number (inject_Z (width bigCanvas))) in
  mkGeometry usableWidthPt pxToPt margin usableHeightPt.

(** Line 200: [Math.floor(usableHeightPt / pxToPt)]. *)
Definition pageSliceHeightPx (pageSize : PageSizeOf) (o : Options)
    (bigCanvas : Canvas) : Z :=
  let g := geometry pageSize o bigCanvas in
  Math_floor (js_div (g_usableHeightPt g) (g_pxToPt g)).

(** Lines 203-212: the card rectangles in canvas pixels. *)
Definition cardRectsPx (o : Options) (m : Measured) : list Rect :=
  map (fun r =>
         let topPx := (r_top r - wrapperTop m + scrollTop m)%Q in
         let heightPx := r_height r in
         mkRect (Math_round (topPx * rasterScale o)%Q)
                (Math_round (heightPx * rasterScale o)%Q))
      (cardRects m).

(** [_computePageSlices(wrapper, cards, bigCanvas)]. *)
Definition _computePageSlices (pageSize : PageSizeOf) (o : Options)
    (m : Measured) (bigCanvas : Canvas) : result (list Slice) :=
  pack_slices (geometry pageSize o bigCanvas)
              (pageSliceHeightPx pageSize o bigCanvas)
              (cardRectsPx o m).

(** * The assembler: [_buildPdfFromSlices] *)

(** One [pdf.addImage(img, "PNG", x, y, w, h, undefined, "FAST")], with
    the source rectangle [drawImage] copied from [bigCanvas]. *)
Record Placement : Type := mkPlacement {
  src_y : Z;
  src_width : Z;
  src_height : Z;
  img_x : Q;
  img_y : Q;
  img_w : Q;
  img_h : Q
}.

(** A jsPDF document: its pages, each with the images placed on it. *)
Definition PdfDoc : Type := list (list Placement).

(** [new jsPDF(...)] starts with one empty page. *)
Definition new_pdf : PdfDoc := [[]].

Definition addPage (pdf : PdfDoc) : PdfDoc := pdf ++ [[]].

(** [addImage] draws on the current, that is the last, page. *)
Definition addImage (p : Placement) (pdf : PdfDoc) : PdfDoc :=
  removelast pdf ++ [last pdf [] ++ [p]].

(** The body of [for (const slice of slices)], without the encoding. *)
Definition place_slice (bigCanvas : Canvas) (slice : Slice) : Placement :=
  let sliceHeightPx := yEndPx slice - yStartPx slice in
  let sliceHeightPt :=
    js_mul (js_number (inject_Z sliceHeightPx)) (pxToPt slice) in
  mkPlacement (yStartPx slice) (width bigCanvas) sliceHeightPx
              (margin slice) (margin slice)
              (usableWidthPt slice) sliceHeightPt.

(** The loop of [_buildPdfFromSlices]; [toDataURL] is the browser's PNG
    encoder of a slice canvas of the given width and height, which may
    throw. *)
Fixpoint place_slices (toDataURL : Z -> Z -> result string)
    (bigCanvas : Canvas) (first : bool) (pdf : PdfDoc) (l : list Slice)
  : result PdfDoc :=
  match l with
  | [] => Ok pdf
  | slice :: l' =>
      let p := place_slice bigCanvas slice in
      match toDataURL (src_width p) (src_height p) with
      | Ok _ =>
          let pdf' := if first then pdf else addPage pdf in
          place_slices toDataURL bigCanvas false (addImage p pdf') l'
      | Throw e => Throw e
      | OutOfFuel => OutOfFuel
      end
  end.

(** * The driver: [generatePDF] *)

(** The browser and the libraries around one run: everything the driver
    awaits or measures.  A DOM node is named by a number. *)
Record Browser : Type := mkBrowser {
  pageSize : PageSizeOf;
  (** [MathJax.typesetPromise([node])] *)
  typeset : nat -> result unit;
  (** [html2canvas(node, {scale, ...})] *)
  html2canvas : nat -> Q -> result Canvas;
  (** the layout of the wrapper once typeset *)
  measure : nat -> Measured;
  (** [sliceCanvas.toDataURL("image/png")] *)
  toDataURL : Z -> Z -> result string
}.

(** The mutable world of a run: the next fresh DOM node, the children of
    the off-screen [renderHost], and the documents saved so far. *)
Record World : Type := mkWorld {
  nextNode : nat;
  renderHost : list nat;
  saved : list (string * PdfDoc)
}.

(** State and exception monad of the driver. *)
Definition M (A : Type) : Type := World -> World * result A.

Definition ret {A : Type} (a : A) : M A := fun w => (w, Ok a).

Definition throw {A : Type} (e : JsError) : M A := fun w => (w, Throw e).

Definition bind {A B : Type} (c : M A) (k : A -> M B) : M B :=
  fun w =>
    match c w with
    | (w', Ok a) => k a w'
    | (w', Throw e) => (w', Throw e)
    | (w', OutOfFuel) => (w', OutOfFuel)
    end.

Definition lift {A : Type} (r : result A) : M A := fun w => (w, r).

Notation "x <- c ;; k" := (bind c (fun x => k))
  (at level 61, c at next level, right associativity).

(** The argument of [generatePDF] as a JavaScript value. *)
Inductive JsValue (A : Type) : Type :=
| NotArray
| Array (items : list A).

Arguments NotArray {A}.
Arguments Array {A} items.

(** An extracted statement, [{type, title?, content, page?}]. *)
Record Item : Type := mkItem {
  i_type : string;
  i_title : option string;
  i_content : string;
  i_page : option Z
}.

(** [_buildContinuousDocument]: create the wrapper, fill it with one card
    per item and append it to [renderHost].  The cards live in the DOM
    only; what the slicer later reads of them is [measure]. *)
Definition _buildContinuousDocument (items : list Item) : M nat :=
  fun w =>
    let wrapper := nextNode w in
    (mkWorld (S wrapper) (renderHost w ++ [wrapper]) (saved w), Ok wrapper).

Fixpoint remove_first (n : nat) (l : list nat) : list nat :=
  match l with
  | [] => []
  | x :: l' => if Nat.eqb x n then l' else x :: remove_first n l'
  end.

(** [this.renderHost.removeChild(wrapper)]; the DOM throws when the node
    is not a child. *)
Definition removeChild (wrapper : nat) : M unit :=
  fun w =>
    if existsb (Nat.eqb wrapper) (renderHost w) then
      (mkWorld (nextNode w) (remove_first wrapper (renderHost w)) (saved w),
       Ok tt)
    else (w, Throw (Rejected "NotFoundError")).

(** [_buildPdfFromSlices]: place every slice, then [pdf.save(filename)]. *)
Definition _buildPdfFromSlices (b : Browser) (o : Options)
    (bigCanvas : Canvas) (l : list Slice) : M unit :=
  pdf <- lift (place_slices (toDataURL b) bigCanvas true new_pdf l) ;;
  fun w =>
    (mkWorld (nextNode w) (renderHost w) (saved w ++ [(filename o, pdf)]),
     Ok tt).

(** [generatePDF(items)].  The 120 ms pause after typesetting has no
    effect on the world and is left out. *)
Definition generatePDF (b : Browser) (o : Options) (items : JsValue Item)
  : M unit :=
  match items with
  | NotArray => throw (Error "No items to export.")
  | Array l =>
      if (length l =? 0)%nat then throw (Error "No items to export.")
      else
        wrapper <- _buildContinuousDocument l ;;
        _ <- lift (typeset b wrapper) ;;
        bigCanvas <- lift (html2canvas b wrapper (rasterScale o)) ;;
        sl <- lift (_computePageSlices (pageSize b) o (measure b wrapper)
                                       bigCanvas) ;;
        _ <- removeChild wrapper ;;
        _buildPdfFromSlices b o bigCanvas sl
  end.

(** * Vocabulary of the specification *)

(** The [RenderedBlock] invariant: every height is positive and the
    cards are stacked in order without overlap, each one starting at or
    below the bottom of the one before. *)
Fixpoint laid_out (cards : list Rect) : bool :=
  match cards with
  | [] => true
  | c :: rest =>
      (0 <? heightPx c)
      && match rest with
         | [] => true
         | c' :: _ => cardBottomPx c <=? topPx c'
         end
      && laid_out rest
  end.

(** The pixel row [y] lies strictly inside the rectangle of [c]. *)
Definition strictly_inside (y : Z) (c : Rect) : Prop :=
  topPx c < y < cardBottomPx c.

(** A page packed with the whole cards [grp]: it runs from the top of the
    first to the bottom of the last and fits the capacity. *)
Definition packed (cap : Z) (grp : list Rect) (s : Slice) : Prop :=
  exists c g,
    grp = c :: g /\
    yStartPx s = topPx c /\
    yEndPx s = cardBottomPx (last g c) /\
    cardBottomPx (last g c) - topPx c <= cap.

(** The oversized-card fallback: a card taller than the capacity, alone,
    cut at the capacity below its top. *)
Definition forced (cap : Z) (grp : list Rect) (s : Slice) : Prop :=
  exists c,
    grp = [c] /\
    cap < heightPx c /\
    yStartPx s = topPx c /\
    yEndPx s = topPx c + cap.

(** [Pages cap groups sl]: page by page, the cards [groups] the slices
    [sl] hold.  Every page is packed or forced, and the card that opens
    the next page would not have fitted on this one. *)
Inductive Pages (cap : Z) : list (list Rect) -> list Slice -> Prop :=
| Pages_nil : Pages cap [] []
| Pages_cons grp groups s sl :
    packed cap grp s \/ forced cap grp s ->
    (forall c', hd_error (concat groups) = Some c' ->
                cap < cardBottomPx c' - yStartPx s) ->
    Pages cap groups sl ->
    Pages cap (grp :: groups) (s :: sl).

(** The slice [s] holds the card [c]: whole, or cut by the fallback. *)
Definition holds (cap : Z) (s : Slice) (c : Rect) : Prop :=
  yStartPx s <= topPx c /\
  (cardBottomPx c <= yEndPx s \/
   (yStartPx s = topPx c /\ yEndPx s = topPx c + cap /\ cap < heightPx c)).

(** The slices tile [[0, total]]: the first starts at 0, each starts where
    the one before ends, the last ends at [total]. *)
Fixpoint tiles (from total : Z) (sl : list Slice) : Prop :=
  match sl with
  | [] => from = total
  | s :: sl' => yStartPx s = from /\ tiles (yEndPx s) total sl'
  end.

(** Sum of the slice heights, in pixels. *)
Definition sum_heights (sl : list Slice) : Z :=
  fold_right (fun s acc => (yEndPx s - yStartPx s) + acc) 0 sl.

(** Pixels between one slice and the next that no slice covers. *)
Fixpoint skipped (sl : list Slice) : Z :=
  match sl with
  | s :: ((s' :: _) as sl') => (yStartPx s' - yEndPx s) + skipped sl'
  | _ => 0
  end.

(** A slice carries the geometry [g]. *)
Definition carries (g : Geometry) (s : Slice) : Prop :=
  s = slice_of g (yStartPx s) (yEndPx s).

(** The slices come in increasing order without overlap: each has a
    positive height and ends at or before the start of every later one. *)
Fixpoint ordered (sl : list Slice) : Prop :=
  match sl with
  | [] => True
  | s :: sl' =>
      yStartPx s < yEndPx s /\
      (forall s', In s' sl' -> yEndPx s <= yStartPx s') /\
      ordered sl'
  end.

(** ** The scenarios of the specification *)

(** jsPDF's page size for format "a4" and unit "pt": 595.28 by 841.89,
    swapped in landscape orientation. *)
Definition a4 : PageSizeOf :=
  fun _ _ orientation =>
    if (String.eqb orientation "l" || String.eqb orientation "landscape")%bool
    then (84189 # 100, 59528 # 100)%Q
    else (59528 # 100, 84189 # 100)%Q.

(** The canvas of the default options: 820 px at raster scale 2.8. *)
Definition a4_canvas : Canvas := mkCanvas 2296 1548.

Definition a4_geometry : Geometry := geometry a4 default_options a4_canvas.

(** Scenario A: three cards 500 px high, 24 px apart. *)
Definition scenarioA : list Rect :=
  [mkRect 0 500; mkRect 524 500; mkRect 1048 500].

(** Scenario B: a single card 2000 px high. *)
Definition scenarioB : list Rect := [mkRect 0 2000].

(** Options whose margins use up the whole page height: A4 landscape is
    595.28 pt high, and the margin is half of that. *)
Definition wide_margin_options : Options :=
  mkOptions "pt" "a4" "l" "extracted.pdf" (28 # 10) (29764 # 100) 820 24.

(** The default options with a margin of 51.03 pt. *)
Definition margin_5103_options : Options :=
  mkOptions "pt" "a4" "p" "extracted.pdf" (28 # 10) (5103 # 100) 820 24.

(** One card, 100 CSS px high, at the top of the wrapper. *)
Definition one_card : Measured := mkMeasured 0 0 [mkDOMRect 0 100].

Definition one_card_canvas : Canvas := mkCanvas 2296 280.

Definition one_item : Item :=
  mkItem "theorem" None "Every bounded sequence has a limit point." None.

Definition empty_world : World := mkWorld 0 [] [].

(** A browser in which everything succeeds. *)
Definition good_browser : Browser :=
  mkBrowser a4 (fun _ => Ok tt) (fun _ _ => Ok one_card_canvas)
            (fun _ => one_card) (fun _ _ => Ok "data:image/png"%string).

(** A browser in which MathJax rejects. *)
Definition failing_typeset : Browser :=
  mkBrowser a4 (fun _ => Throw (Rejected "MathJax"))
            (fun _ _ => Ok one_card_canvas)
            (fun _ => one_card) (fun _ _ => Ok "data:image/png"%string).

(** The forced slice of a card under capacity [cap]. *)
Definition forced_slice (g : Geometry) (cap : Z) (c : Rect) : Slice :=
  slice_of g (topPx c) (topPx c + cap).

(** ** Further vocabulary for the slicer *)

(** A non-empty run of cards fits one page: from the top of its first card
    to the bottom of its last it is no taller than the capacity. *)
Definition fits (cap : Z) (grp : list Rect) : Prop :=
  match grp with
  | [] => False
  | c :: g => cardBottomPx (last g c) - topPx c <= cap
  end.


(** * Around the generator: cards, construction, the download button *)

(** A JavaScript [Map] (or the own properties of an object) with string
    keys: entries stay in insertion order, and [set] on a key already
    present replaces its value in place. *)
Definition JsMap (V : Type) : Type := list (string * V).

Fixpoint map_get {V : Type} (k : string) (m : JsMap V) : option V :=
  match m with
  | [] => None
  | (k', v) :: m' => if String.eqb k' k then Some v else map_get k m'
  end.

Fixpoint map_set {V : Type} (k : string) (v : V) (m : JsMap V) : JsMap V :=
  match m with
  | [] => [(k, v)]
  | (k', v') :: m' =>
      if String.eqb k' k then (k', v) :: m' else (k', v') :: map_set k v m'
  end.

(** [Array.from(m.values())]. *)
Definition map_values {V : Type} (m : JsMap V) : list V := map snd m.

(** The default [colorMap]. *)
Definition default_colorMap : JsMap string :=
  [("definition", "#E8EDFF"); ("lemma", "#E8FFF3"); ("theorem", "#FFF5E6");
   ("proposition", "#FFF0F5"); ("corollary", "#F0FFF4");
   ("remark", "#F7FAFC"); ("claim", "#F9FAFB"); ("axiom", "#E6F7FF")]%string.

(** The property names every object inherits from [Object.prototype]. *)
Definition object_prototype_names : list string :=
  ["constructor"; "__defineGetter__"; "__defineSetter__"; "hasOwnProperty";
   "__lookupGetter__"; "__lookupSetter__"; "isPrototypeOf";
   "propertyIsEnumerable"; "toString"; "valueOf"; "__proto__";
   "toLocaleString"]%string.

(** What [colorMap[key]] evaluates to: an own string, a member inherited
    from [Object.prototype], or [undefined]. *)
Inductive JsProp : Type :=
| Own (value : string)
| Inherited (name : string)
| Undefined.

Definition object_get (own : JsMap string) (k : string) : JsProp :=
  match map_get k own with
  | Some v => Own v
  | None =>
      if existsb (String.eqb k) object_prototype_names then Inherited k
      else Undefined
  end.

(** JavaScript truthiness of a property value: the empty string and
    [undefined] are falsy. *)
Definition truthy (p : JsProp) : bool :=
  match p with
  | Own v => negb (String.eqb v "")
  | Inherited _ => true
  | Undefined => false
  end.

(** [a || b] on strings, the empty string being falsy. *)
Definition or_string (a b : string) : string :=
  if String.eqb a "" then b else a.

(** The decimal numeral of [${index + 1}]. *)
Definition decimal (n : nat) : string :=
  DecimalString.NilEmpty.string_of_uint (Nat.to_uint n).

(** What [_buildItemCard] puts into a card, and the top margin
    [_buildContinuousDocument] then gives it. *)
Record Card : Type := mkCard {
  background : JsProp;
  badge : string;
  card_title : string;
  card_content : string;
  source_page : option Z;
  marginTop : option Q
}.

(** [_buildItemCard(item, index)].  [toLowerCase] is the string method of
    the language; a missing [type] or [content] is the empty string of
    the record, a missing or [null] title is [None]. *)
Definition _buildItemCard (toLowerCase : string -> string)
    (colorMap : JsMap string) (item : Item) (index : nat) : Card :=
  let type := toLowerCase (or_string (i_type item) "definition") in
  let bg :=
    if truthy (object_get colorMap type) then object_get colorMap type
    else object_get colorMap "definition" in
  let title :=
    match i_title item with
    | Some t =>
        or_string t
          (or_string (i_type item) "Item" ++ " " ++ decimal (index + 1))
    | None => or_string (i_type item) "Item" ++ " " ++ decimal (index + 1)
    end%string in
  mkCard bg (or_string (i_type item) "Item") title
         (or_string (i_content item) "") (i_page item) None.

(** The loop of [_buildContinuousDocument], lines 107-112: one card per
    item, every card but the first pushed down by [blockSpacingPx]. *)
Fixpoint build_cards (toLowerCase : string -> string)
    (colorMap : JsMap string) (o : Options) (items : list Item) (i : nat)
  : list Card :=
  match items with
  | [] => []
  | item :: rest =>
      let card := _buildItemCard toLowerCase colorMap item i in
      let card' :=
        if (0 <? i)%nat then
          mkCard (background card) (badge card) (card_title card)
                 (card_content card) (source_page card)
                 (Some (blockSpacingPx o))
        else card in
      card' :: build_cards toLowerCase colorMap o rest (S i)
  end.

(** The page a generator is constructed in: whether the two libraries are
    loaded, the element with id [pdfRenderContainer] if there is one, the
    children of [document.body], and the next fresh node. *)
Record Page : Type := mkPage {
  jsPDF_loaded : bool;
  html2canvas_loaded : bool;
  hostElement : option nat;
  bodyChildren : list nat;
  page_nextNode : nat
}.

(** The constructor after the options are merged, lines 37-51: check the
    libraries, then find or create the off-screen render host.  It
    returns the host. *)
Definition constructor (p : Page) : Page * result nat :=
  if negb (jsPDF_loaded p) then (p, Throw (Error "jsPDF is not loaded."))
  else if negb (html2canvas_loaded p) then
    (p, Throw (Error "html2canvas is not loaded."))
  else
    match hostElement p with
    | Some h => (p, Ok h)
    | None =>
        let h := page_nextNode p in
        (mkPage (jsPDF_loaded p) (html2canvas_loaded p) (Some h)
                (bodyChildren p ++ [h]) (S h),
         Ok h)
    end.

(** A page with both libraries and no render host yet, and the same page
    without jsPDF, and without html2canvas. *)
Definition ready_page : Page := mkPage true true None [7%nat] 8.

Definition page_without_jsPDF : Page := mkPage false true None [7%nat] 8.

Definition page_without_html2canvas : Page :=
  mkPage true false None [7%nat] 8.

(** The part of the client page the download handler touches. *)
Record Ui : Type := mkUi {
  loadingShown : bool;
  loadingText : string;
  fileInfoShown : bool;
  errorShown : bool;
  errorText : string
}.

Definition showLoading (msg : string) (u : Ui) : Ui :=
  mkUi true msg false (errorShown u) (errorText u).

Definition hideLoading (u : Ui) : Ui :=
  mkUi false (loadingText u) (fileInfoShown u) (errorShown u) (errorText u).

Definition showError (msg : string) (u : Ui) : Ui :=
  mkUi (loadingShown u) (loadingText u) (fileInfoShown u) true msg.

(** The click handler of the download button in the client script:
    construct a generator with the default options, run it on
    [extractedData], and report any failure. *)
Definition onDownloadClick (b : Browser) (extractedData : JsValue Item)
    (st : Page * World * Ui) : Page * World * Ui :=
  let '(p, w, u) := st in
  let u1 := showLoading "Rendering LaTeX and building the PDF..." u in
  match constructor p with
  | (p', Ok _) =>
      match generatePDF b default_options extractedData w with
      | (w', Ok _) => (p', w', hideLoading u1)
      | (w', _) => (p', w', showError "Failed to generate PDF." (hideLoading u1))
      end
  | (p', _) => (p', w, showError "Failed to generate PDF." (hideLoading u1))
  end.

(** * Upstream: de-duplication and chunking *)

(** One iteration of the loop of [dedupeByNumberedTitle].  The key
    function [normalizeNumberedTitle] is a parameter. *)
Definition dedupe_step (normalizeNumberedTitle : option string -> string -> string)
    (best : JsMap Item) (it : Item) : JsMap Item :=
  let key := normalizeNumberedTitle (i_title it) (i_type it) in
  match map_get key best with
  | None => map_set key it best
  | Some existing =>
      let currLen := String.length (i_content it) in
      let prevLen := String.length (i_content existing) in
      if (prevLen <? currLen)%nat then map_set key it best else best
  end.

(** [dedupeByNumberedTitle(items)]. *)
Definition dedupeByNumberedTitle
    (normalizeNumberedTitle : option string -> string -> string)
    (items : list Item) : list Item :=
  map_values (fold_left (dedupe_step normalizeNumberedTitle) items []).

(** The key of an item. *)
Definition key_of (normalizeNumberedTitle : option string -> string -> string)
    (it : Item) : string :=
  normalizeNumberedTitle (i_title it) (i_type it).

(** An element of [allExtractions]: parsed from the JSON the language
    model returned, and not checked.  [x_content] is the string under
    [content]; it is [None] when the element has no [content] or has one
    that is not a string. *)
Record Extraction : Type := mkExtraction {
  x_type : option string;
  x_title : option string;
  x_content : option string
}.

(** The loop of [removeDuplicates] of the earlier server script: [seen]
    is the [Set] of keys, [unique] the array built so far.  The key is
    [item.content.substring(0, 100).toLowerCase().trim()], of which
    [lowerTrim] stands for the two last string methods; reading
    [substring] of a [content] that is not a string throws a
    [TypeError]. *)
Fixpoint removeDuplicates_loop (lowerTrim : string -> string)
    (items : list Extraction) (seen : list string) (unique : list Extraction)
  : result (list Extraction) :=
  match items with
  | [] => Ok unique
  | item :: rest =>
      match x_content item with
      | None => Throw TypeError
      | Some content =>
          let key := lowerTrim (String.substring 0 100 content) in
          if existsb (String.eqb key) seen then
            removeDuplicates_loop lowerTrim rest seen unique
          else
            removeDuplicates_loop lowerTrim rest (key :: seen)
                                  (unique ++ [item])
      end
  end.

Definition removeDuplicates (lowerTrim : string -> string)
    (items : list Extraction) : result (list Extraction) :=
  removeDuplicates_loop lowerTrim items [] [].

(** Whether an element has a string under [content]. *)
Definition has_content (it : Extraction) : bool :=
  match x_content it with
  | Some _ => true
  | None => false
  end.

(** The key [removeDuplicates] compares, for an element that has a
    content. *)
Definition content_key (lowerTrim : string -> string) (it : Extraction)
  : string :=
  match x_content it with
  | Some content => lowerTrim (String.substring 0 100 content)
  | None => ""
  end.

(** Three extractions, the third with the content of the first, and one
    without a content. *)
Definition extraction_set : Extraction :=
  mkExtraction (Some "definition"%string) None (Some "A set."%string).

Definition extraction_power : Extraction :=
  mkExtraction (Some "theorem"%string) (Some "Theorem 2"%string)
               (Some "Every set has a power set."%string).

Definition extraction_set_again : Extraction :=
  mkExtraction (Some "remark"%string) None (Some "A set."%string).

Definition extraction_bare : Extraction :=
  mkExtraction (Some "lemma"%string) (Some "Lemma 3"%string) None.

(** [s.substring(a, b)]: both indices are clamped to the string, and
    swapped when the first is the larger. *)
Definition js_substring (a b : Z) (s : string) : string :=
  let len := Z.of_nat (String.length s) in
  let a' := Z.max 0 (Z.min a len) in
  let b' := Z.max 0 (Z.min b len) in
  let lo := Z.min a' b' in
  let hi := Z.max a' b' in
  String.substring (Z.to_nat lo) (Z.to_nat (hi - lo)) s.

(** The [for] loop of [chunkText]. *)
Fixpoint chunk_loop (fuel : nat) (text : string) (chunkSize : Z) (i : Z)
    (chunks : list string) : result (list string) :=
  if i <? Z.of_nat (String.length text) then
    match fuel with
    | O => OutOfFuel
    | S fuel' =>
        chunk_loop fuel' text chunkSize (i + chunkSize)
                   (chunks ++ [js_substring i (i + chunkSize) text])
    end
  else Ok chunks.

(** [chunkText(text, chunkSize)], for an integer [chunkSize]. *)
Definition chunkText (text : string) (chunkSize : Z) : result (list string) :=
  chunk_loop (String.length text) text chunkSize 0 [].

(** Some extracted items. *)
Definition item_def_short : Item :=
  mkItem "Definition" (Some "Definition 1.1"%string) "A set." None.

Definition item_def_long : Item :=
  mkItem "Definition" (Some "Def. 1.1"%string) "A set is a collection." None.

Definition item_thm : Item :=
  mkItem "Theorem" (Some "Theorem 2"%string) "Every set has a power set."
         (Some 3).

(** A stand-in normaliser for the examples, which keys an item by its
    type: the two definitions above share a key. *)
Definition by_type : option string -> string -> string :=
  fun _ type => type.

(** The keys of a list in the order of their first occurrence. *)
Definition first_keys (l : list string) : list string :=
  rev (nodup string_dec (rev l)).

(** [v] is the item kept for key [k] among [seen]: it has that key, every
    earlier item with the key is strictly shorter, and no later one is
    longer. *)
Definition kept_in (K : Item -> string) (seen : list Item) (k : string)
    (v : Item) : Prop :=
  K v = k /\
  exists pre post,
    seen = pre ++ v :: post /\
    (forall y, In y pre -> K y = k ->
       (String.length (i_content y) < String.length (i_content v))%nat) /\
    (forall y, In y post -> K y = k ->
       (String.length (i_content y) <= String.length (i_content v))%nat).

(** The state of the [Map] after the items [seen]. *)
Definition dedupe_inv (K : Item -> string) (seen : list Item)
    (best : JsMap Item) : Prop :=
  map fst best = first_keys (map K seen) /\
  forall k v, In (k, v) best -> kept_in K seen k v.

(** * Lemmas on the layout invariant *)

Lemma laid_out_cons (c : Rect) (rest : list Rect) :
  laid_out (c :: rest) = true ->
  0 < heightPx c /\ laid_out rest = true /\
  (forall c', hd_error rest = Some c' -> cardBottomPx c <= topPx c').
Proof.
  cbn [laid_out]. intros H.
  apply andb_true_iff in H as [H H3]. apply andb_true_iff in H as [H1 H2].
  repeat split; [lia | assumption |].
  intros c' Hc'. destruct rest as [|x rest]; cbn in Hc'; [discriminate|].
  injection Hc' as ->. lia.
Qed.

Lemma laid_out_later (c : Rect) (rest : list Rect) :
  laid_out (c :: rest) = true ->
  forall c', In c' rest -> cardBottomPx c <= topPx c' /\ 0 < heightPx c'.
Proof.
  revert c. induction rest as [|x rest IH]; intros c H c' Hin; [easy|].
  apply laid_out_cons in H as (Hc & Hrest & Hnext).
  specialize (Hnext x eq_refl).
  destruct Hin as [<- | Hin].
  - apply laid_out_cons in Hrest as (Hx & _). lia.
  - pose proof (laid_out_cons _ _ Hrest) as (Hx & _ & _).
    destruct (IH x Hrest c' Hin) as [H1 H2]. unfold cardBottomPx in *. lia.
Qed.

Lemma laid_out_app (l1 l2 : list Rect) :
  laid_out (l1 ++ l2) = true -> laid_out l2 = true.
Proof.
  induction l1 as [|x l1 IH]; [easy|]. rewrite <- app_comm_cons.
  intros H. apply laid_out_cons in H as (_ & H & _). auto.
Qed.

Lemma laid_out_positive (l : list Rect) :
  laid_out l = true -> forall c, In c l -> 0 < heightPx c.
Proof.
  induction l as [|x l IH]; [easy|]. intros H c [<- | Hin].
  - now apply laid_out_cons in H.
  - apply laid_out_cons in H as (_ & H & _). auto.
Qed.

(** Two cards of a layout are the same rectangle or lie apart. *)
Lemma laid_out_apart (l : list Rect) :
  laid_out l = true ->
  forall c c', In c l -> In c' l ->
    c = c' \/ cardBottomPx c <= topPx c' \/ cardBottomPx c' <= topPx c.
Proof.
  induction l as [|x l IH]; [easy|]. intros H c c' [<- | Hc] [<- | Hc'].
  - now left.
  - right; left. now apply (laid_out_later _ _ H).
  - right; right. now apply (laid_out_later _ _ H).
  - apply laid_out_cons in H as (_ & H & _). auto.
Qed.

(** * The inner loop *)

Lemma last_cons_default {A : Type} (g : list A) (c d : A) :
  last (c :: g) d = last g c.
Proof.
  revert c d. induction g as [|x g IH]; intros c d; [reflexivity|].
  change (last (c :: x :: g) d) with (last (x :: g) d).
  rewrite IH. symmetry. apply IH.
Qed.

(** The cursor only moves forward, by at most the cards that remain, and
    [usedPx] changes only when it moves. *)
Lemma inner_loop_cursor (cap : Z) (rest : list Rect) (st : PageState) :
  let st' := inner_loop cap rest st in
  (currentIndex st <= currentIndex st' <= currentIndex st + length rest)%nat /\
  (usedPx st' <> usedPx st -> (currentIndex st < currentIndex st')%nat).
Proof.
  revert st. induction rest as [|c rest IH]; intros st; cbn.
  - split; [lia | congruence].
  - destruct (_ <=? cap).
    + specialize (IH (mkPageState
                        (if usedPx st =? 0 then topPx c else pageStartPx st)
                        (topPx c + heightPx c
                         - (if usedPx st =? 0 then topPx c else pageStartPx st))
                        (topPx c + heightPx c) (S (currentIndex st)))).
      cbn in IH. destruct IH as [IH _]. split; intros; lia.
    + cbn. split; [lia | congruence].
Qed.

(** In the middle of a page that starts at [P] and whose last card is
    [prev], the loop takes the longest run [g] of cards whose bottoms stay
    within the capacity, and stops in front of a card that overflows. *)
Lemma inner_loop_mid (cap P : Z) (rest : list Rect) :
  forall (prev : Rect) (idx : nat),
    0 < cardBottomPx prev - P <= cap ->
    (forall c, In c rest -> P < cardBottomPx c) ->
    exists g rest',
      rest = g ++ rest' /\
      inner_loop cap rest
        (mkPageState P (cardBottomPx prev - P) (cardBottomPx prev) idx)
      = mkPageState P (cardBottomPx (last g prev) - P)
                    (cardBottomPx (last g prev)) (idx + length g) /\
      0 < cardBottomPx (last g prev) - P <= cap /\
      (forall c', hd_error rest' = Some c' -> cap < cardBottomPx c' - P).
Proof.
  induction rest as [|c rest IH]; intros prev idx Hprev Hrest.
  - exists [], []. cbn. rewrite Nat.add_0_r. repeat split; try lia.
    discriminate.
  - cbn [inner_loop].
    replace (usedPx _ =? 0) with false by (cbn; symmetry; apply Z.eqb_neq; lia).
    cbn [pageStartPx usedPx lastCardBottomPx currentIndex].
    assert (Hc : P < cardBottomPx c) by (apply Hrest; now left).
    fold (cardBottomPx c).
    destruct (cardBottomPx c - P <=? cap) eqn:Hfit.
    + apply Z.leb_le in Hfit.
      destruct (IH c (S idx)) as (g & rest' & -> & Hrun & Hlast & Hnext).
      * lia.
      * intros x Hx. apply Hrest. now right.
      * exists (c :: g), rest'. repeat split; try tauto.
        -- rewrite Hrun, last_cons_default. cbn [length]. f_equal. lia.
        -- rewrite last_cons_default. lia.
        -- rewrite last_cons_default. lia.
    + apply Z.leb_gt in Hfit.
      exists [], (c :: rest). cbn [app length last]. rewrite Nat.add_0_r.
      repeat split; try lia.
      intros c' [= <-]. lia.
Qed.

(** At the head of a page, on a layout: either the first card is taller
    than the capacity and nothing is placed, or the page takes the first
    card and the longest run after it that fits. *)
Lemma inner_loop_start (cap ps : Z) (c : Rect) (rest : list Rect) (idx : nat) :
  laid_out (c :: rest) = true ->
  let st' := inner_loop cap (c :: rest) (mkPageState ps 0 ps idx) in
  (cap < heightPx c /\ st' = mkPageState (topPx c) 0 ps idx) \/
  (exists g rest',
      rest = g ++ rest' /\
      st' = mkPageState (topPx c) (cardBottomPx (last g c) - topPx c)
                        (cardBottomPx (last g c)) (S idx + length g) /\
      0 < cardBottomPx (last g c) - topPx c <= cap /\
      (forall c', hd_error rest' = Some c' ->
                  cap < cardBottomPx c' - topPx c)).
Proof.
  intros Hl. cbn [inner_loop usedPx pageStartPx lastCardBottomPx currentIndex].
  rewrite Z.eqb_refl.
  pose proof (laid_out_cons _ _ Hl) as (Hc & _ & _).
  destruct (topPx c + heightPx c - topPx c <=? cap) eqn:Hfit.
  - apply Z.leb_le in Hfit. right.
    destruct (inner_loop_mid cap (topPx c) rest c (S idx))
      as (g & rest' & Hsplit & Hrun & Hlast & Hnext).
    + unfold cardBottomPx. lia.
    + intros x Hx. destruct (laid_out_later _ _ Hl x Hx).
      unfold cardBottomPx in *. lia.
    + exists g, rest'. repeat split; try tauto; lia.
  - apply Z.leb_gt in Hfit. left. split; [lia | reflexivity].
Qed.

(** * The outer loop *)

Lemma skipn_cons_inv {A : Type} (l : list A) (idx : nat) (c : A) (rest : list A) :
  skipn idx l = c :: rest ->
  nth_error l idx = Some c /\ skipn (S idx) l = rest /\ (idx < length l)%nat.
Proof.
  revert idx. induction l as [|x l IH]; intros idx H.
  - destruct idx; discriminate.
  - destruct idx as [|idx]; cbn in H.
    + injection H as -> ->. cbn. repeat split. lia.
    + destruct (IH idx H) as (H1 & H2 & H3). cbn [nth_error length].
      repeat split; [assumption | assumption | lia].
Qed.

Lemma skipn_run {A : Type} (l : list A) (idx : nat) (g rest : list A) :
  skipn idx l = g ++ rest -> skipn (length g + idx) l = rest.
Proof.
  intros H. rewrite <- skipn_skipn, H, skipn_app, skipn_all, Nat.sub_diag.
  reflexivity.
Qed.

Lemma skipn_nil_inv {A : Type} (l : list A) (idx : nat) :
  skipn idx l = [] -> (length l <= idx)%nat.
Proof.
  intros H. pose proof (length_skipn idx l) as HL. rewrite H in HL.
  cbn in HL. lia.
Qed.

(** Every iteration of the outer loop pushes exactly one slice and moves
    the cursor forward by at least one card, on any input. *)
Lemma outer_body_advances (g : Geometry) (cap : Z) (cards : list Rect)
    (s s' : SlicerState) :
  outer_body g cap cards s = Ok s' ->
  (s_currentIndex s < s_currentIndex s')%nat /\
  ((s_currentIndex s <= length cards)%nat ->
   (s_currentIndex s' <= length cards)%nat) /\
  exists ys ye, slices s' = slices s ++ [slice_of g ys ye].
Proof.
  unfold outer_body.
  pose proof (inner_loop_cursor cap (skipn (s_currentIndex s) cards)
                (mkPageState (s_pageStartPx s) 0 (s_pageStartPx s)
                             (s_currentIndex s))) as [[Hlo Hhi] Hmove].
  cbn [currentIndex usedPx] in Hlo, Hhi, Hmove.
  rewrite length_skipn in Hhi.
  destruct (0 <? usedPx _) eqn:Hused.
  - intros [= <-]. cbn. apply Z.ltb_lt in Hused.
    repeat split; [apply Hmove; lia | lia | eauto].
  - destruct (nth_error cards _) as [c|] eqn:Hnth; [|discriminate].
    intros [= <-]. cbn.
    assert (currentIndex
              (inner_loop cap (skipn (s_currentIndex s) cards)
                 (mkPageState (s_pageStartPx s) 0 (s_pageStartPx s)
                              (s_currentIndex s))) < length cards)%nat
      by (apply nth_error_Some; congruence).
    repeat split; [lia | lia | eauto].
Qed.

(** The outer loop never runs out of fuel once the fuel covers the cards
    that remain, and then its result does not depend on the fuel. *)
Lemma outer_loop_fuel (g : Geometry) (cap : Z) (cards : list Rect) :
  forall (fuel fuel' : nat) (s : SlicerState),
    (length cards - s_currentIndex s <= fuel)%nat ->
    (length cards - s_currentIndex s <= fuel')%nat ->
    outer_loop fuel g cap cards s <> OutOfFuel /\
    outer_loop fuel' g cap cards s = outer_loop fuel g cap cards s.
Proof.
  induction fuel as [|fuel IH]; intros fuel' s H H'.
  - destruct fuel'; cbn [outer_loop];
      destruct (s_currentIndex s <? length cards)%nat eqn:Hlt;
      try (split; [discriminate | reflexivity]);
      apply Nat.ltb_lt in Hlt; lia.
  - destruct fuel' as [|fuel']; cbn [outer_loop];
      destruct (s_currentIndex s <? length cards)%nat eqn:Hlt;
      try (split; [discriminate | reflexivity]);
      apply Nat.ltb_lt in Hlt; [lia|].
    destruct (outer_body g cap cards s) as [s1| |] eqn:Hbody;
      try (split; [discriminate | reflexivity]).
    + apply outer_body_advances in Hbody as (Hadv & _ & _).
      apply IH; lia.
    + unfold outer_body in Hbody.
      destruct (0 <? _); [discriminate|].
      destruct (nth_error _ _); discriminate.
Qed.

(** The loop pushes at most one slice per remaining card. *)
Lemma outer_loop_count (g : Geometry) (cap : Z) (cards : list Rect) :
  forall (fuel : nat) (s : SlicerState) (sl : list Slice),
    (s_currentIndex s <= length cards)%nat ->
    outer_loop fuel g cap cards s = Ok sl ->
    (length sl + s_currentIndex s <= length (slices s) + length cards)%nat.
Proof.
  induction fuel as [|fuel IH]; intros s sl Hle; cbn [outer_loop];
    destruct (s_currentIndex s <? length cards)%nat eqn:Hlt;
    try discriminate; try (intros [= <-]; lia).
  destruct (outer_body g cap cards s) as [s1| |] eqn:Hbody; try discriminate.
  intros Hrun.
  apply outer_body_advances in Hbody as (Hadv & Hin & ys & ye & Hpush).
  apply IH in Hrun; [|auto].
  rewrite Hpush, length_app in Hrun. cbn in Hrun. lia.
Qed.

(** On a layout the loop succeeds, and its slices page the remaining
    cards greedily. *)
Lemma outer_loop_pages (g : Geometry) (cap : Z) (cards : list Rect) :
  forall (fuel : nat) (acc : list Slice) (ps : Z) (idx : nat),
    (length (skipn idx cards) <= fuel)%nat ->
    laid_out (skipn idx cards) = true ->
    exists sl groups,
      outer_loop fuel g cap cards (mkSlicerState acc ps idx) = Ok (acc ++ sl) /\
      concat groups = skipn idx cards /\
      Pages cap groups sl /\
      Forall (carries g) sl.
Proof.
  induction fuel as [|fuel IH]; intros acc ps idx Hfuel Hl;
    destruct (skipn idx cards) as [|c rest] eqn:Hskip;
    try (cbn in Hfuel; lia).
  1, 2: exists [], []; rewrite app_nil_r;
    cbn [outer_loop s_currentIndex slices];
    apply skipn_nil_inv in Hskip;
    replace (idx <? length cards)%nat with false
      by (symmetry; apply Nat.ltb_ge; lia);
    repeat split; constructor.
  destruct (skipn_cons_inv _ _ _ _ Hskip) as (Hnth & Hnext & Hidx).
  cbn [outer_loop s_currentIndex].
  replace (idx <? length cards)%nat with true
    by (symmetry; apply Nat.ltb_lt; lia).
  unfold outer_body. cbn [s_currentIndex s_pageStartPx slices]. rewrite Hskip.
  pose proof (laid_out_cons _ _ Hl) as (Hc & Hlrest & Hgap).
  destruct (inner_loop_start cap ps c rest idx Hl)
    as [[Hover ->] | (grp & rest' & -> & -> & Hlast & Hmax)];
    cbn [usedPx pageStartPx lastCardBottomPx currentIndex].
  - rewrite Z.ltb_irrefl, Hnth.
    destruct (IH (acc ++ [slice_of g (topPx c)
                            (topPx c + Z.min (heightPx c) cap)])
                 (yEndPx (slice_of g (topPx c)
                            (topPx c + Z.min (heightPx c) cap)))
                 (S idx)) as (sl & groups & Hrun & Hcat & Hpages & Hgeo).
    + rewrite Hnext. cbn in Hfuel. lia.
    + now rewrite Hnext.
    + exists (slice_of g (topPx c) (topPx c + Z.min (heightPx c) cap) :: sl),
             ([c] :: groups).
      rewrite Hrun, <- app_assoc. repeat split.
      * cbn. now rewrite Hcat, Hnext.
      * constructor; [| |assumption].
        -- right. exists c. cbn. repeat split; lia.
        -- rewrite Hcat, Hnext. intros c' Hc'. cbn.
           specialize (Hgap c' Hc').
           assert (0 < heightPx c').
           { apply (laid_out_positive _ Hlrest). destruct rest; [discriminate|].
             injection Hc' as ->. now left. }
           unfold cardBottomPx in *. lia.
      * constructor; [reflexivity | assumption].
  - replace (0 <? _) with true by (symmetry; apply Z.ltb_lt; lia).
    pose proof (skipn_run _ _ (c :: grp) rest' Hskip) as Hnext'.
    cbn [length] in Hnext'.
    replace (S (length grp) + idx)%nat with (S idx + length grp)%nat
      in Hnext' by lia.
    destruct (IH (acc ++ [slice_of g (topPx c) (cardBottomPx (last grp c))])
                 (cardBottomPx (last grp c)) (S idx + length grp)%nat)
      as (sl & groups & Hrun & Hcat & Hpages & Hgeo).
    + rewrite Hnext'. cbn in Hfuel. rewrite length_app in Hfuel. lia.
    + rewrite Hnext'. apply (laid_out_app (c :: grp)). exact Hl.
    + exists (slice_of g (topPx c) (cardBottomPx (last grp c)) :: sl),
             ((c :: grp) :: groups).
      rewrite Hrun, <- app_assoc. repeat split.
      * cbn. now rewrite Hcat, Hnext'.
      * constructor; [| |assumption].
        -- left. exists c, grp. cbn. repeat split; lia.
        -- rewrite Hcat, Hnext'. exact Hmax.
      * constructor; [reflexivity | assumption].
Qed.

(** Whatever the input, every slice of a successful run carries the
    geometry the loop was given. *)
Lemma outer_loop_carries (g : Geometry) (cap : Z) (cards : list Rect) :
  forall (fuel : nat) (s : SlicerState) (sl : list Slice),
    Forall (carries g) (slices s) ->
    outer_loop fuel g cap cards s = Ok sl ->
    Forall (carries g) sl.
Proof.
  induction fuel as [|fuel IH]; intros s sl Hacc; cbn [outer_loop];
    destruct (s_currentIndex s <? length cards)%nat;
    try discriminate; try (intros [= <-]; assumption).
  destruct (outer_body g cap cards s) as [s1| |] eqn:Hbody; try discriminate.
  apply outer_body_advances in Hbody as (_ & _ & ys & ye & Hpush).
  apply IH. rewrite Hpush. apply Forall_app. split; [assumption|].
  constructor; [reflexivity | constructor].
Qed.

Lemma pack_slices_pages (g : Geometry) (cap : Z) (cards : list Rect) :
  laid_out cards = true ->
  exists sl groups,
    pack_slices g cap cards = Ok sl /\
    concat groups = cards /\
    Pages cap groups sl /\
    Forall (carries g) sl.
Proof.
  intros Hl. unfold pack_slices.
  destruct (outer_loop_pages g cap cards (length cards) [] 0 0%nat)
    as (sl & groups & Hrun & Hcat & Hpages & Hgeo); cbn [skipn]; auto.
  exists sl, groups. auto.
Qed.

(** * Consequences of the paging relation *)

Lemma laid_out_split (l1 l2 : list Rect) :
  laid_out (l1 ++ l2) = true ->
  laid_out l1 = true /\ laid_out l2 = true /\
  (forall c c', In c l1 -> In c' l2 -> cardBottomPx c <= topPx c').
Proof.
  induction l1 as [|x l1 IH]; cbn [app]; intros H.
  - repeat split; [assumption | intros c c' []].
  - pose proof (laid_out_cons _ _ H) as (Hx & Hrest & Hnext).
    destruct (IH Hrest) as (H1 & H2 & Hsep). repeat split.
    + cbn [laid_out]. rewrite H1, andb_true_r. apply andb_true_iff. split.
      * apply Z.ltb_lt. lia.
      * destruct l1 as [|y l1]; [reflexivity|].
        apply Z.leb_le. apply Hnext. reflexivity.
    + assumption.
    + intros c c' [<- | Hc] Hc'.
      * apply (laid_out_later _ _ H). apply in_or_app. now right.
      * now apply Hsep.
Qed.

Lemma laid_out_group (groups : list (list Rect)) (grp : list Rect) :
  laid_out (concat groups) = true -> In grp groups -> laid_out grp = true.
Proof.
  induction groups as [|x groups IH]; [easy|]. cbn [concat]. intros H Hin.
  apply laid_out_split in H as (H1 & H2 & _).
  destruct Hin as [<- | Hin]; auto.
Qed.

Lemma in_group_in_concat (groups : list (list Rect)) (grp : list Rect) (c : Rect) :
  In grp groups -> In c grp -> In c (concat groups).
Proof.
  intros H1 H2. apply in_concat. eauto.
Qed.

(** A layout runs from the top of its first card to the bottom of its
    last. *)
Lemma laid_out_span (g : list Rect) :
  forall c, laid_out (c :: g) = true ->
  forall c', In c' (c :: g) ->
    topPx c <= topPx c' /\ cardBottomPx c' <= cardBottomPx (last g c).
Proof.
  induction g as [|x g IH]; intros c H c' Hin.
  - destruct Hin as [<- | []]. cbn. lia.
  - pose proof (laid_out_cons _ _ H) as (Hc & Hrest & Hnext).
    specialize (Hnext x eq_refl). rewrite last_cons_default.
    pose proof (laid_out_cons _ _ Hrest) as (Hx & _ & _).
    destruct Hin as [<- | Hin].
    + destruct (IH x Hrest x (or_introl eq_refl)) as [_ Hb].
      unfold cardBottomPx in *. lia.
    + destruct (IH x Hrest c' Hin) as [Ht Hb].
      unfold cardBottomPx in *. lia.
Qed.

Lemma last_in {A : Type} (g : list A) (c : A) : In (last g c) (c :: g).
Proof.
  revert c. induction g as [|x g IH]; intros c; [now left|].
  rewrite last_cons_default. right. apply IH.
Qed.

(** What a page, packed or forced, says about its slice. *)
Lemma page_facts (cap : Z) (grp : list Rect) (s : Slice) :
  packed cap grp s \/ forced cap grp s ->
  laid_out grp = true ->
  exists c g,
    grp = c :: g /\
    yStartPx s = topPx c /\
    yEndPx s <= cardBottomPx (last g c) /\
    (0 < cap -> yStartPx s < yEndPx s) /\
    (forall c', In c' grp -> holds cap s c').
Proof.
  intros [(c & g & -> & Hs & He & Hfit) | (c & -> & Hover & Hs & He)] Hl.
  - exists c, g. pose proof (laid_out_cons _ _ Hl) as (Hc & _ & _).
    pose proof (laid_out_span g c Hl) as Hspan.
    destruct (Hspan c (or_introl eq_refl)) as [_ Hb].
    repeat split; try lia.
    + intros _. unfold cardBottomPx in *. lia.
    + destruct (Hspan c' H). lia.
    + left. destruct (Hspan c' H). lia.
  - exists c, []. cbn [last]. unfold cardBottomPx.
    repeat split; try lia.
    + destruct H as [<- | []]. lia.
    + destruct H as [<- | []]. right. lia.
Qed.

Lemma Pages_Forall2 (cap : Z) (groups : list (list Rect)) (sl : list Slice) :
  Pages cap groups sl ->
  Forall2 (fun grp s => packed cap grp s \/ forced cap grp s) groups sl.
Proof.
  induction 1; constructor; assumption.
Qed.

(** Every slice starts at the top of a card. *)
Lemma Pages_starts (cap : Z) (groups : list (list Rect)) (sl : list Slice) :
  Pages cap groups sl ->
  forall s, In s sl -> exists c, In c (concat groups) /\ yStartPx s = topPx c.
Proof.
  induction 1 as [|grp groups s sl Hpage Hmax Hrest IH]; [easy|].
  intros s' [<- | Hin]; cbn [concat].
  - destruct Hpage as [(c & g & -> & Hs & _) | (c & -> & _ & Hs & _)];
      exists c; split; auto; now left.
  - destruct (IH s' Hin) as (c & Hc & Hs). exists c. split; [|assumption].
    apply in_or_app. now right.
Qed.

Lemma Pages_ordered (cap : Z) (groups : list (list Rect)) (sl : list Slice) :
  0 < cap ->
  Pages cap groups sl ->
  laid_out (concat groups) = true ->
  ordered sl.
Proof.
  intros Hcap. induction 1 as [|grp groups s sl Hpage Hmax Hrest IH];
    [easy|]. cbn [concat ordered]. intros Hl.
  apply laid_out_split in Hl as (Hgrp & Hl & Hsep).
  destruct (page_facts cap grp s Hpage Hgrp)
    as (c & g & -> & Hs & He & Hpos & Hholds).
  repeat split; auto.
  intros s' Hin.
  destruct (Pages_starts _ _ _ Hrest s' Hin) as (c2 & Hc2 & ->).
  specialize (Hsep (last g c) c2 (last_in g c) Hc2). lia.
Qed.

(** Every card is held by exactly one slice. *)
Lemma Pages_exactly_one (cap : Z) (groups : list (list Rect)) (sl : list Slice) :
  0 < cap ->
  Pages cap groups sl ->
  laid_out (concat groups) = true ->
  forall c, In c (concat groups) ->
    exists k s,
      nth_error sl k = Some s /\ holds cap s c /\
      forall k' s', nth_error sl k' = Some s' -> holds cap s' c -> k' = k.
Proof.
  intros Hcap. induction 1 as [|grp groups s sl Hpage Hmax Hrest IH];
    [easy|]. cbn [concat]. intros Hl c Hc.
  pose proof (laid_out_positive _ Hl c Hc) as Hh.
  pose proof (laid_out_split _ _ Hl) as (Hgrp & Hl' & Hsep).
  destruct (page_facts cap grp s Hpage Hgrp)
    as (c0 & g & -> & Hs & He & Hpos & Hholds).
  apply in_app_or in Hc as [Hc | Hc].
  - exists 0%nat, s. split; [reflexivity|]. split; [now apply Hholds|].
    intros [|j] s' Hnth Hheld; [reflexivity | exfalso].
    cbn in Hnth. apply nth_error_In in Hnth.
    destruct (Pages_starts _ _ _ Hrest s' Hnth) as (c2 & Hc2 & Hs2).
    specialize (Hsep c c2 Hc Hc2). destruct Hheld as [Hheld _].
    unfold cardBottomPx in *. lia.
  - destruct (IH Hl' c Hc) as (k & s1 & Hnth & Hheld & Huniq).
    exists (S k), s1. split; [exact Hnth|]. split; [exact Hheld|].
    intros [|j] s' Hnth' Hheld'.
    + exfalso. cbn in Hnth'. injection Hnth' as <-.
      pose proof (Hsep (last g c0) c (last_in g c0) Hc) as H1.
      pose proof (Hsep c0 c (or_introl eq_refl) Hc) as H2.
      pose proof (laid_out_cons _ _ Hgrp) as (H0 & _ & _).
      destruct Hheld' as [_ [Hw | (Hclip & _)]];
        unfold cardBottomPx in *; lia.
    + f_equal. apply (Huniq j s'); assumption.
Qed.

Lemma sum_heights_telescope (sl : list Slice) :
  forall s0,
    sum_heights (s0 :: sl) + skipped (s0 :: sl)
    = yEndPx (last sl s0) - yStartPx s0.
Proof.
  induction sl as [|s sl IH]; intros s0.
  - cbn. lia.
  - rewrite last_cons_default. specialize (IH s).
    change (sum_heights (s0 :: s :: sl))
      with ((yEndPx s0 - yStartPx s0) + sum_heights (s :: sl)).
    change (skipped (s0 :: s :: sl))
      with ((yStartPx s - yEndPx s0) + skipped (s :: sl)).
    lia.
Qed.

Lemma ordered_skipped (sl : list Slice) : ordered sl -> 0 <= skipped sl.
Proof.
  induction sl as [|s sl IH]; [cbn; lia|].
  intros (_ & Hnext & Hord). destruct sl as [|s' sl]; [cbn; lia|].
  change (skipped (s :: s' :: sl))
    with ((yStartPx s' - yEndPx s) + skipped (s' :: sl)).
  specialize (Hnext s' (or_introl eq_refl)). specialize (IH Hord). lia.
Qed.

Lemma Pages_ends (cap : Z) (groups : list (list Rect)) (sl : list Slice) :
  Pages cap groups sl ->
  laid_out (concat groups) = true ->
  forall s, In s sl ->
    exists c, In c (concat groups) /\ yEndPx s <= cardBottomPx c.
Proof.
  induction 1 as [|grp groups s sl Hpage Hmax Hrest IH]; [easy|].
  cbn [concat]. intros Hl s' Hin.
  apply laid_out_split in Hl as (Hgrp & Hl & _).
  destruct Hin as [<- | Hin].
  - destruct (page_facts cap grp s Hpage Hgrp) as (c & g & -> & _ & He & _).
    exists (last g c). split; [|assumption].
    apply in_or_app. left. apply last_in.
  - destruct (IH Hl s' Hin) as (c & Hc & He). exists c. split; [|assumption].
    apply in_or_app. now right.
Qed.

(** The card that opens the next page would have overflowed this one. *)
Lemma Pages_maximal (cap : Z) (groups : list (list Rect)) (sl : list Slice) :
  Pages cap groups sl ->
  forall k s grp',
    nth_error sl k = Some s ->
    nth_error groups (S k) = Some grp' ->
    exists c' rest,
      grp' = c' :: rest /\ cap < cardBottomPx c' - yStartPx s.
Proof.
  induction 1 as [|grp groups s sl Hpage Hmax Hrest IH]; intros k s0 grp' Hk Hg.
  - destruct k; discriminate.
  - destruct k as [|k]; cbn in Hk, Hg.
    + injection Hk as <-. destruct Hrest as [|grp1 groups s1 sl Hpage1 _ _];
        [discriminate|].
      cbn in Hg. injection Hg as <-.
      destruct Hpage1 as [(c & g & -> & _) | (c & -> & _)].
      * exists c, g. split; [reflexivity|]. apply Hmax. reflexivity.
      * exists c, []. split; [reflexivity|]. apply Hmax. reflexivity.
    + eapply IH; eassumption.
Qed.

Lemma Forall2_impl_in {A B : Type} (P Q : A -> B -> Prop)
    (l1 : list A) (l2 : list B) :
  Forall2 P l1 l2 ->
  (forall a b, In a l1 -> In b l2 -> P a b -> Q a b) ->
  Forall2 Q l1 l2.
Proof.
  induction 1 as [|a b l1 l2 Hab Hrest IH]; intros Himp; constructor.
  - apply Himp; [now left | now left | assumption].
  - apply IH. intros a' b' Ha Hb. apply Himp; now right.
Qed.

Lemma Forall2_in_l {A B : Type} (P : A -> B -> Prop)
    (l1 : list A) (l2 : list B) (a : A) :
  Forall2 P l1 l2 -> In a l1 -> exists b, In b l2 /\ P a b.
Proof.
  induction 1 as [|a' b l1 l2 Hab Hrest IH]; [easy|].
  intros [<- | Hin].
  - exists b. split; [now left | assumption].
  - destruct (IH Hin) as (b' & Hb' & HP). exists b'. split; [now right | assumption].
Qed.

Lemma Forall2_in_r {A B : Type} (P : A -> B -> Prop)
    (l1 : list A) (l2 : list B) (b : B) :
  Forall2 P l1 l2 -> In b l2 -> exists a, In a l1 /\ P a b.
Proof.
  induction 1 as [|a b' l1 l2 Hab Hrest IH]; [easy|].
  intros [<- | Hin].
  - exists a. split; [now left | assumption].
  - destruct (IH Hin) as (a' & Ha' & HP). exists a'. split; [now right | assumption].
Qed.

(** A row that is the top or the bottom edge of a card of a layout lies
    strictly inside no card of that layout. *)
Lemma edges_bisect_nothing (cards : list Rect) (c : Rect) :
  laid_out cards = true -> In c cards ->
  forall x, In x cards ->
    ~ strictly_inside (topPx c) x /\ ~ strictly_inside (cardBottomPx c) x.
Proof.
  intros Hl Hc x Hx. unfold strictly_inside.
  pose proof (laid_out_positive _ Hl c Hc).
  pose proof (laid_out_positive _ Hl x Hx).
  destruct (laid_out_apart _ Hl x c Hx Hc) as [-> | [H1 | H1]];
    unfold cardBottomPx in *; lia.
Qed.

(** * The claims on the page slicer *)

(** C1.  On every card sequence that satisfies the layout invariant, for
    every capacity, the slicer succeeds and its slices go page by page
    through the cards: each slice starts exactly at the top of the first
    card not placed on an earlier page and holds the cards of its page; no
    slice starts strictly inside a card rectangle, and no slice ends
    strictly inside one except the forced slice of the oversized-card
    fallback. *)
Theorem slices_break_between_cards (g : Geometry) (cap : Z) (cards : list Rect) :
  laid_out cards = true ->
  exists sl groups,
    pack_slices g cap cards = Ok sl /\
    concat groups = cards /\
    Forall2
      (fun grp s =>
         (exists c rest, grp = c :: rest /\ yStartPx s = topPx c) /\
         (forall c, In c grp -> holds cap s c) /\
         (forall c, In c cards -> ~ strictly_inside (yStartPx s) c) /\
         ((forall c, In c cards -> ~ strictly_inside (yEndPx s) c) \/
          forced cap grp s))
      groups sl.
Proof.
  intros Hl.
  destruct (pack_slices_pages g cap cards Hl)
    as (sl & groups & Hrun & Hcat & Hpages & _).
  exists sl, groups. repeat split; try assumption.
  apply Pages_Forall2 in Hpages.
  apply (Forall2_impl_in _ _ _ _ Hpages). intros grp s Hgrp _ Hpage.
  assert (Hsub : forall c, In c grp -> In c cards)
    by (intros c Hc; rewrite <- Hcat; eapply in_group_in_concat; eauto).
  assert (Hlg : laid_out grp = true)
    by (apply (laid_out_group groups); [now rewrite Hcat | assumption]).
  destruct (page_facts cap grp s Hpage Hlg)
    as (c & rest & -> & Hs & _ & _ & Hholds).
  split; [eauto|]. split; [assumption|]. split.
  - intros x Hx. rewrite Hs.
    apply (edges_bisect_nothing cards c Hl); [apply Hsub; now left | assumption].
  - destruct Hpage as [(c1 & g1 & [= <- <-] & _ & He & _) | Hforced];
      [left | now right].
    intros x Hx. rewrite He.
    apply (edges_bisect_nothing cards (last rest c) Hl);
      [apply Hsub, last_in | assumption].
Qed.

Lemma slices_break_between_cards_witness :
  laid_out scenarioA = true /\
  exists sl groups,
    pack_slices a4_geometry 1100 scenarioA = Ok sl /\
    concat groups = scenarioA /\
    Forall2
      (fun grp s =>
         (exists c rest, grp = c :: rest /\ yStartPx s = topPx c) /\
         (forall c, In c grp -> holds 1100 s c) /\
         (forall c, In c scenarioA -> ~ strictly_inside (yStartPx s) c) /\
         ((forall c, In c scenarioA -> ~ strictly_inside (yEndPx s) c) \/
          forced 1100 grp s))
      groups sl.
Proof.
  split; [reflexivity|].
  apply (slices_break_between_cards a4_geometry 1100 scenarioA).
  reflexivity.
Defined.

(** C3.  The packing is greedy: on a layout, every page is either packed
    (it runs from the top of its first card to the bottom of its last, and
    every card on it ends within the capacity below the page start) or the
    forced page of one oversized card; and it is maximal: the card that
    opens the next page would have ended beyond the capacity had it been
    added to this one.  In Scenario A (heights 500, 500, 500, gap 24,
    capacity 1100) page 1 holds cards 1-2 (1024 px) and page 2 card 3. *)
Theorem packing_is_greedy_and_maximal (g : Geometry) (cap : Z)
    (cards : list Rect) :
  laid_out cards = true ->
  (exists sl groups,
     pack_slices g cap cards = Ok sl /\
     concat groups = cards /\
     Forall2
       (fun grp s =>
          (packed cap grp s /\
           forall c, In c grp -> cardBottomPx c - yStartPx s <= cap) \/
          forced cap grp s)
       groups sl /\
     (forall k s grp',
        nth_error sl k = Some s ->
        nth_error groups (S k) = Some grp' ->
        exists c' rest,
          grp' = c' :: rest /\ cap < cardBottomPx c' - yStartPx s)) /\
  pack_slices g 1100 scenarioA
  = Ok [slice_of g 0 1024; slice_of g 1048 1548] /\
  Pages 1100 [[mkRect 0 500; mkRect 524 500]; [mkRect 1048 500]]
        [slice_of g 0 1024; slice_of g 1048 1548].
Proof.
  intros Hl. split; [|split].
  - destruct (pack_slices_pages g cap cards Hl)
      as (sl & groups & Hrun & Hcat & Hpages & _).
    exists sl, groups. repeat split; try assumption.
    + apply (Forall2_impl_in _ _ _ _ (Pages_Forall2 _ _ _ Hpages)).
      intros grp s Hgrp _ [Hpacked | Hforced]; [left | now right].
      split; [assumption|].
      assert (Hlg : laid_out grp = true)
        by (apply (laid_out_group groups); [now rewrite Hcat | assumption]).
      destruct Hpacked as (c & rest & -> & Hs & He & Hfit).
      intros x Hx. destruct (laid_out_span rest c Hlg x Hx). lia.
    + apply (Pages_maximal _ _ _ Hpages).
  - reflexivity.
  - constructor.
    + left. exists (mkRect 0 500), [mkRect 524 500]. cbn. repeat split; lia.
    + intros c' [= <-]. cbn. lia.
    + constructor.
      * left. exists (mkRect 1048 500), []. cbn. repeat split; lia.
      * intros c' [=].
      * constructor.
Qed.

Lemma packing_is_greedy_and_maximal_witness :
  laid_out scenarioA = true /\
  pack_slices a4_geometry 1100 scenarioA
  = Ok [slice_of a4_geometry 0 1024; slice_of a4_geometry 1048 1548].
Proof.
  split; [reflexivity|].
  apply (packing_is_greedy_and_maximal a4_geometry 1100 scenarioA).
  reflexivity.
Defined.

(** C5.  On a layout, a card taller than the capacity is placed alone on a
    page: some slice starts at its top and ends exactly the capacity
    below it, and that slice meets no other card.  A single card 2000 px
    high with capacity 1200 yields exactly one slice, 1200 px high. *)
Theorem oversized_card_is_clipped_alone (g : Geometry) (cap : Z)
    (cards : list Rect) (c : Rect) :
  laid_out cards = true ->
  In c cards ->
  cap < heightPx c ->
  (exists sl s,
     pack_slices g cap cards = Ok sl /\
     In s sl /\
     yStartPx s = topPx c /\
     yEndPx s = topPx c + cap /\
     forall c', In c' cards -> c' <> c ->
       cardBottomPx c' <= yStartPx s \/ yEndPx s <= topPx c') /\
  pack_slices g 1200 scenarioB = Ok [slice_of g 0 1200].
Proof.
  intros Hl Hc Hover. split; [|reflexivity].
  destruct (pack_slices_pages g cap cards Hl)
    as (sl & groups & Hrun & Hcat & Hpages & _).
  rewrite <- Hcat in Hc. apply in_concat in Hc as (grp & Hgrp & Hc).
  destruct (Forall2_in_l _ _ _ grp (Pages_Forall2 _ _ _ Hpages) Hgrp)
    as (s & Hs & Hpage).
  assert (Hlg : laid_out grp = true)
    by (apply (laid_out_group groups); [now rewrite Hcat | assumption]).
  exists sl, s. split; [assumption|]. split; [assumption|].
  destruct Hpage as [(c0 & rest & -> & _ & _ & Hfit) | (c0 & -> & _ & Hstart & Hend)].
  - exfalso. destruct (laid_out_span rest c0 Hlg c Hc).
    unfold cardBottomPx in *. lia.
  - destruct Hc as [<- | []]. repeat split; try assumption.
    intros c' Hc' Hneq.
    assert (Hc0 : In c0 cards)
      by (rewrite <- Hcat; apply (in_group_in_concat groups [c0]);
          [assumption | now left]).
    destruct (laid_out_apart _ Hl c' c0 Hc' Hc0) as [-> | [H1 | H1]];
      [contradiction | left | right]; unfold cardBottomPx in *; lia.
Qed.

Lemma oversized_card_is_clipped_alone_witness :
  (laid_out scenarioB = true /\ In (mkRect 0 2000) scenarioB /\ 1200 < 2000) /\
  pack_slices a4_geometry 1200 scenarioB = Ok [slice_of a4_geometry 0 1200].
Proof.
  split; [split; [reflexivity | split; [left; reflexivity | lia]] |].
  apply (oversized_card_is_clipped_alone a4_geometry 1200 scenarioB
           (mkRect 0 2000)); [reflexivity | left; reflexivity | cbn; lia].
Defined.

(** C10.  Every iteration of the outer loop pushes one slice and moves the
    cursor forward by at least one card; hence the slicer terminates (the
    fuel [length cards] is never exhausted, and more fuel changes
    nothing), and a run that returns has at most as many slices as there
    are cards.  On a layout the run returns and every slice holds at
    least one card, whole or clipped. *)
Theorem slicer_terminates_within_card_count (g : Geometry) (cap : Z)
    (cards : list Rect) :
  (forall s s',
     outer_body g cap cards s = Ok s' ->
     (s_currentIndex s < s_currentIndex s')%nat /\
     length (slices s') = S (length (slices s))) /\
  pack_slices g cap cards <> OutOfFuel /\
  (forall fuel,
     (length cards <= fuel)%nat ->
     outer_loop fuel g cap cards (mkSlicerState [] 0 0%nat)
     = pack_slices g cap cards) /\
  (forall sl,
     pack_slices g cap cards = Ok sl -> (length sl <= length cards)%nat) /\
  (laid_out cards = true ->
   exists sl,
     pack_slices g cap cards = Ok sl /\
     forall s, In s sl -> exists c, In c cards /\ holds cap s c).
Proof.
  split; [|split; [|split; [|split]]].
  - intros s s' Hbody.
    apply outer_body_advances in Hbody as (Hadv & _ & ys & ye & ->).
    rewrite length_app. cbn. split; lia.
  - apply (outer_loop_fuel g cap cards (length cards) (length cards));
      cbn; lia.
  - intros fuel Hfuel.
    apply (outer_loop_fuel g cap cards (length cards) fuel); cbn; lia.
  - intros sl Hrun.
    apply (outer_loop_count g cap cards) in Hrun; cbn in *; lia.
  - intros Hl.
    destruct (pack_slices_pages g cap cards Hl)
      as (sl & groups & Hrun & Hcat & Hpages & _).
    exists sl. split; [assumption|]. intros s Hs.
    destruct (Forall2_in_r _ _ _ s (Pages_Forall2 _ _ _ Hpages) Hs)
      as (grp & Hgrp & Hpage).
    assert (Hlg : laid_out grp = true)
      by (apply (laid_out_group groups); [now rewrite Hcat | assumption]).
    destruct (page_facts cap grp s Hpage Hlg)
      as (c & rest & -> & _ & _ & _ & Hholds).
    exists c. split.
    + rewrite <- Hcat. apply (in_group_in_concat groups (c :: rest));
        [assumption | now left].
    + apply Hholds. now left.
Qed.

Lemma slicer_terminates_within_card_count_witness :
  laid_out scenarioA = true /\
  exists sl,
    pack_slices a4_geometry 1100 scenarioA = Ok sl /\
    forall s, In s sl -> exists c, In c scenarioA /\ holds 1100 s c.
Proof.
  split; [reflexivity|].
  apply (slicer_terminates_within_card_count a4_geometry 1100 scenarioA).
  reflexivity.
Defined.

(** C2, as stated, fails.  In Scenario A the surface is 1548 px high; the
    slices are [0, 1024] and [1048, 1548]: the 24 px between the two
    pages belong to no slice, so the slices do not tile [0, 1548] and
    their heights add up to 1524. *)
Lemma surface_partition_fails_scenarioA :
  exists sl,
    pack_slices a4_geometry 1100 scenarioA = Ok sl /\
    ~ tiles 0 (height a4_canvas) sl /\
    sum_heights sl = 1524 /\
    sum_heights sl <> height a4_canvas.
Proof.
  exists [slice_of a4_geometry 0 1024; slice_of a4_geometry 1048 1548].
  split; [reflexivity|]. split; [|split].
  - cbn. intros (_ & H & _). discriminate H.
  - reflexivity.
  - cbn. discriminate.
Qed.

(** C2, amended.  On a non-empty layout with a positive capacity the
    slicer succeeds; every card is held (whole, or clipped by the
    fallback) by exactly one slice; the slices come in increasing order
    and never overlap; the first starts at the top of the first card and
    none ends below the bottom of the last card.  The slices do not tile
    the surface: the pixels between the end of one slice and the start of
    the next are covered by no slice, and the sum of the slice heights is
    the distance from the first card's top to the last slice's end less
    those skipped pixels. *)
Theorem slices_hold_every_card_once (g : Geometry) (cap : Z)
    (c0 : Rect) (rest : list Rect) :
  laid_out (c0 :: rest) = true ->
  0 < cap ->
  exists s1 sl,
    pack_slices g cap (c0 :: rest) = Ok (s1 :: sl) /\
    (forall c, In c (c0 :: rest) ->
       exists k s,
         nth_error (s1 :: sl) k = Some s /\ holds cap s c /\
         forall k' s',
           nth_error (s1 :: sl) k' = Some s' -> holds cap s' c -> k' = k) /\
    ordered (s1 :: sl) /\
    yStartPx s1 = topPx c0 /\
    (forall s, In s (s1 :: sl) -> yEndPx s <= cardBottomPx (last rest c0)) /\
    0 <= skipped (s1 :: sl) /\
    sum_heights (s1 :: sl)
    = yEndPx (last sl s1) - topPx c0 - skipped (s1 :: sl).
Proof.
  intros Hl Hcap.
  destruct (pack_slices_pages g cap (c0 :: rest) Hl)
    as (sl & groups & Hrun & Hcat & Hpages & _).
  assert (Hl' : laid_out (concat groups) = true) by now rewrite Hcat.
  pose proof (Pages_ordered cap groups sl Hcap Hpages Hl') as Hord.
  pose proof (Pages_exactly_one cap groups sl Hcap Hpages Hl') as Hone.
  pose proof (Pages_ends cap groups sl Hpages Hl') as Hends.
  rewrite Hcat in Hone, Hends.
  destruct Hpages as [|grp groups s1 sl Hpage _ _]; [discriminate|].
  exists s1, sl. split; [assumption|]. split; [assumption|].
  split; [assumption|]. split; [|split; [|split]].
  - cbn [concat] in Hcat.
    destruct Hpage as [(c & g1 & -> & Hs & _) | (c & -> & _ & Hs & _)];
      injection Hcat as -> _; assumption.
  - intros s Hs. destruct (Hends s Hs) as (c & Hc & He).
    destruct (laid_out_span rest c0 Hl c Hc). lia.
  - now apply ordered_skipped.
  - pose proof (sum_heights_telescope sl s1) as Htel.
    cbn [concat] in Hcat.
    destruct Hpage as [(c & g1 & -> & Hs & _) | (c & -> & _ & Hs & _)];
      injection Hcat as -> _; lia.
Qed.

Lemma slices_hold_every_card_once_witness :
  (laid_out scenarioA = true /\ 0 < 1100) /\
  exists s1 sl,
    pack_slices a4_geometry 1100 scenarioA = Ok (s1 :: sl) /\
    ordered (s1 :: sl) /\
    sum_heights (s1 :: sl)
    = yEndPx (last sl s1) - 0 - skipped (s1 :: sl).
Proof.
  split; [split; [reflexivity | lia] |].
  destruct (slices_hold_every_card_once a4_geometry 1100
              (mkRect 0 500) [mkRect 524 500; mkRect 1048 500])
    as (s1 & sl & Hrun & _ & Hord & _ & _ & _ & Hsum);
    [reflexivity | lia |].
  exists s1, sl. split; [exact Hrun|]. split; [exact Hord | exact Hsum].
Defined.

(** * The claims on geometry *)

Lemma Pages_nonpositive (g : Geometry) (cap : Z)
    (groups : list (list Rect)) (sl : list Slice) :
  cap <= 0 ->
  Pages cap groups sl ->
  laid_out (concat groups) = true ->
  Forall (carries g) sl ->
  sl = map (forced_slice g cap) (concat groups).
Proof.
  intros Hcap. induction 1 as [|grp groups s sl Hpage Hmax Hrest IH];
    [reflexivity|]. cbn [concat]. intros Hl Hgeo.
  apply laid_out_split in Hl as (Hgrp & Hl & _).
  inversion Hgeo as [|? ? Hs Hgeo']; subst.
  destruct Hpage as [(c & rest & -> & _ & _ & Hfit) | (c & -> & _ & Hys & Hye)].
  - exfalso. pose proof (laid_out_cons _ _ Hgrp) as (Hc & _ & _).
    destruct (laid_out_span rest c Hgrp c (or_introl eq_refl)).
    unfold cardBottomPx in *. lia.
  - cbn [app map]. f_equal; [|auto].
    unfold forced_slice. rewrite Hs, Hys, Hye. reflexivity.
Qed.

(** C4, as stated, fails.  On A4 landscape with a margin of 297.64 pt the
    usable height is 0 and the capacity computes to 0; the slicer raises
    no error and returns a slice, of height 0. *)
Lemma zero_capacity_is_sliced :
  g_usableHeightPt (geometry a4 wide_margin_options one_card_canvas) == 0 /\
  pageSliceHeightPx a4 wide_margin_options one_card_canvas = 0 /\
  _computePageSlices a4 wide_margin_options one_card one_card_canvas
  = Ok [slice_of (geometry a4 wide_margin_options one_card_canvas) 0 0].
Proof.
  repeat split.
Qed.

(** C4, amended.  When the capacity computes to zero or less (on a canvas
    of positive width and a page of non-zero usable width) the slicer
    raises no error: on a layout it returns one forced slice per card,
    from the card's top to the capacity below it, an empty or inverted
    pixel range. *)
Theorem nonpositive_capacity_forces_every_card (ps : PageSizeOf)
    (o : Options) (m : Measured) (bigCanvas : Canvas) :
  0 < width bigCanvas ->
  ~ (g_usableWidthPt (geometry ps o bigCanvas) == 0)%Q ->
  pageSliceHeightPx ps o bigCanvas <= 0 ->
  laid_out (cardRectsPx o m) = true ->
  _computePageSlices ps o m bigCanvas
  = Ok (map (forced_slice (geometry ps o bigCanvas)
                          (pageSliceHeightPx ps o bigCanvas))
            (cardRectsPx o m)) /\
  Forall (fun s => yEndPx s <= yStartPx s)
         (map (forced_slice (geometry ps o bigCanvas)
                            (pageSliceHeightPx ps o bigCanvas))
              (cardRectsPx o m)).
Proof.
  intros _ _ Hcap Hl. unfold _computePageSlices. split.
  - destruct (pack_slices_pages (geometry ps o bigCanvas)
                (pageSliceHeightPx ps o bigCanvas) (cardRectsPx o m) Hl)
      as (sl & groups & Hrun & Hcat & Hpages & Hgeo).
    rewrite Hrun. f_equal. rewrite <- Hcat.
    apply Pages_nonpositive; try assumption. now rewrite Hcat.
  - apply Forall_forall. intros s Hs. apply in_map_iff in Hs as (c & <- & _).
    unfold forced_slice, slice_of. cbn [yEndPx yStartPx]. lia.
Qed.

Lemma nonpositive_capacity_forces_every_card_witness :
  (0 < width one_card_canvas /\
   ~ (g_usableWidthPt (geometry a4 wide_margin_options one_card_canvas) == 0)%Q /\
   pageSliceHeightPx a4 wide_margin_options one_card_canvas <= 0 /\
   laid_out (cardRectsPx wide_margin_options one_card) = true) /\
  _computePageSlices a4 wide_margin_options one_card one_card_canvas
  = Ok (map (forced_slice (geometry a4 wide_margin_options one_card_canvas)
               (pageSliceHeightPx a4 wide_margin_options one_card_canvas))
            (cardRectsPx wide_margin_options one_card)).
Proof.
  split;
    [split; [reflexivity |
             split; [intros H; vm_compute in H; discriminate H |
                     split; [vm_compute; discriminate | reflexivity]]] |].
  apply (nonpositive_capacity_forces_every_card a4 wide_margin_options
           one_card one_card_canvas);
    [reflexivity | intros H; vm_compute in H; discriminate H
     | vm_compute; discriminate | reflexivity].
Defined.

(** C7.  The slice list is a function of the card rectangles in canvas
    pixels, the page size, the margin and the canvas width alone: two runs
    that agree on these return the same result, whatever else differs
    (file name, layout width, block spacing, canvas height, the raw DOM
    measurements and raster scale behind equal rectangles). *)
Theorem slicing_is_deterministic (ps1 ps2 : PageSizeOf) (o1 o2 : Options)
    (m1 m2 : Measured) (c1 c2 : Canvas) :
  ps1 (pdfUnit o1) (pdfFormat o1) (pdfOrientation o1)
  = ps2 (pdfUnit o2) (pdfFormat o2) (pdfOrientation o2) ->
  pageMarginPt o1 = pageMarginPt o2 ->
  width c1 = width c2 ->
  cardRectsPx o1 m1 = cardRectsPx o2 m2 ->
  _computePageSlices ps1 o1 m1 c1 = _computePageSlices ps2 o2 m2 c2.
Proof.
  intros Hps Hmargin Hwidth Hrects.
  unfold _computePageSlices, pageSliceHeightPx, geometry.
  rewrite Hps, Hmargin, Hwidth, Hrects. reflexivity.
Qed.

Lemma slicing_is_deterministic_witness :
  _computePageSlices a4 default_options one_card one_card_canvas
  = _computePageSlices a4
      (mkOptions "pt" "a4" "p" "notes.pdf" (28 # 10) 28 640 12)
      one_card (mkCanvas 2296 9000).
Proof.
  apply (slicing_is_deterministic a4 a4 default_options
           (mkOptions "pt" "a4" "p" "notes.pdf" (28 # 10) 28 640 12)
           one_card one_card one_card_canvas (mkCanvas 2296 9000));
    reflexivity.
Defined.

(** * The claims on the assembler and the driver *)

Lemma addImage_addPage (p : Placement) (pdf : PdfDoc) :
  addImage p (addPage pdf) = pdf ++ [[p]].
Proof.
  unfold addImage, addPage. now rewrite removelast_last, last_last.
Qed.

(** After the first slice, every slice adds one page holding its image. *)
Lemma place_slices_rest (td : Z -> Z -> result string) (bigCanvas : Canvas)
    (l : list Slice) :
  forall pdf pdf',
    place_slices td bigCanvas false pdf l = Ok pdf' ->
    pdf' = pdf ++ map (fun s => [place_slice bigCanvas s]) l.
Proof.
  induction l as [|s l IH]; intros pdf pdf'; cbn [place_slices map].
  - intros [= <-]. now rewrite app_nil_r.
  - destruct (td _ _); try discriminate. intros H.
    apply IH in H. rewrite addImage_addPage in H.
    now rewrite H, <- app_assoc.
Qed.

(** The document has one page per slice, each with the image of its
    slice; without slices it keeps its initial empty page. *)
Lemma place_slices_pages (td : Z -> Z -> result string) (bigCanvas : Canvas)
    (l : list Slice) (pdf : PdfDoc) :
  place_slices td bigCanvas true new_pdf l = Ok pdf ->
  pdf = match l with
        | [] => new_pdf
        | _ :: _ => map (fun s => [place_slice bigCanvas s]) l
        end.
Proof.
  destruct l as [|s l]; cbn [place_slices].
  - now intros [= <-].
  - destruct (td _ _); try discriminate. intros H.
    apply place_slices_rest in H. exact H.
Qed.

(** ** Rounding to the nearest double *)

Lemma two_power_Z (n : Z) : 0 <= n -> (2 ^ n == inject_Z (2 ^ n))%Q.
Proof.
  intros H. symmetry. apply (Zpower_Qpower 2 n H).
Qed.

Lemma binade_le (a : Q) : (0 < a)%Q -> (2 ^ binade a <= a)%Q.
Proof.
  intros Ha. unfold binade.
  destruct (Qle_bool (2 ^ (Z.log2 (Qnum a) - Z.log2 (Z.pos (Qden a)))) a)
    eqn:Htest; [now apply Qle_bool_iff|].
  destruct a as [n d]. cbn [Qnum Qden] in *.
  assert (Hn : 0 < n) by (unfold Qlt in Ha; cbn in Ha; lia).
  pose proof (Z.log2_spec n Hn) as [Hn1 _].
  pose proof (Z.log2_spec (Z.pos d) eq_refl) as [_ Hd2].
  pose proof (Z.log2_nonneg n). pose proof (Z.log2_nonneg (Z.pos d)).
  replace (Z.log2 n - Z.log2 (Z.pos d) - 1)
    with (Z.log2 n - (Z.log2 (Z.pos d) + 1)) by lia.
  rewrite Qpower_minus by discriminate.
  rewrite (two_power_Z (Z.log2 n)), (two_power_Z (Z.log2 (Z.pos d) + 1)) by lia.
  replace (Z.succ (Z.log2 (Z.pos d))) with (Z.log2 (Z.pos d) + 1) in Hd2 by lia.
  set (A := 2 ^ Z.log2 n) in *. set (B := 2 ^ (Z.log2 (Z.pos d) + 1)) in *.
  apply Qle_shift_div_r.
  - change 0%Q with (inject_Z 0). rewrite <- Zlt_Qlt. lia.
  - unfold Qle, Qmult, inject_Z. cbn. nia.
Qed.

Lemma round_nearest_even_error (x : Q) :
  (Qabs (inject_Z (round_nearest_even x) - x) <= 1 # 2)%Q.
Proof.
  unfold round_nearest_even.
  pose proof (Qfloor_le x) as Hlo. pose proof (Qlt_floor x) as Hhi.
  rewrite inject_Z_plus in Hhi. change (inject_Z 1) with 1%Q in Hhi.
  apply Qabs_Qle_condition.
  destruct (Qcompare (x - inject_Z (Qfloor x)) (1 # 2)) eqn:Hc.
  - apply Qeq_alt in Hc.
    destruct (Z.even (Qfloor x)); [|rewrite inject_Z_plus;
                                     change (inject_Z 1) with 1%Q]; lra.
  - apply Qlt_alt in Hc. lra.
  - apply Qgt_alt in Hc. rewrite inject_Z_plus. change (inject_Z 1) with 1%Q.
    lra.
Qed.

Lemma round64_error (q : Q) :
  (Qabs (round64 q - q) <= Qabs q * (1 # 9007199254740992))%Q.
Proof.
  unfold round64. destruct (Qnum q) as [|n|n] eqn:Hn.
  - assert (q == 0)%Q by (destruct q; cbn in Hn; subst; reflexivity).
    apply Qabs_Qle_condition. pose proof (Qabs_nonneg q).
    assert (Qabs q == 0)%Q by (rewrite H; reflexivity). lra.
  - assert (Hq : (0 < q)%Q) by (destruct q; cbn in Hn; subst; reflexivity).
    rewrite Qred_correct. cbn [Z.ltb Z.compare].
    assert (Ha : (Qabs q == q)%Q) by (apply Qabs_pos; lra).
    set (a := Qabs q) in *. set (e := binade a - 52).
    assert (Hpos : (0 < a)%Q) by lra.
    pose proof (binade_le a Hpos) as Hb.
    replace (binade a) with (e + 52) in Hb by (unfold e; lia).
    rewrite Qpower_plus in Hb by discriminate.
    assert (HP : (0 < 2 ^ e)%Q) by (apply Qpower_0_lt; reflexivity).
    set (P := (2 ^ e)%Q) in *.
    pose proof (round_nearest_even_error (a / P)) as Hr.
    apply Qabs_Qle_condition in Hr. destruct Hr as [Hr1 Hr2].
    set (m := inject_Z (round_nearest_even (a / P))) in *.
    assert (Hx : (a / P * P == a)%Q) by (field; lra).
    change (2 ^ 52)%Q with 4503599627370496%Q in Hb.
    apply Qabs_Qle_condition. split; nra.
  - assert (Hq : (q < 0)%Q) by (destruct q; cbn in Hn; subst; reflexivity).
    rewrite Qred_correct. cbn [Z.ltb Z.compare].
    assert (Ha : (Qabs q == - q)%Q) by (apply Qabs_neg; lra).
    set (a := Qabs q) in *. set (e := binade a - 52).
    assert (Hpos : (0 < a)%Q) by lra.
    pose proof (binade_le a Hpos) as Hb.
    replace (binade a) with (e + 52) in Hb by (unfold e; lia).
    rewrite Qpower_plus in Hb by discriminate.
    assert (HP : (0 < 2 ^ e)%Q) by (apply Qpower_0_lt; reflexivity).
    set (P := (2 ^ e)%Q) in *.
    pose proof (round_nearest_even_error (a / P)) as Hr.
    apply Qabs_Qle_condition in Hr. destruct Hr as [Hr1 Hr2].
    set (m := inject_Z (round_nearest_even (a / P))) in *.
    assert (Hx : (a / P * P == a)%Q) by (field; lra).
    change (2 ^ 52)%Q with 4503599627370496%Q in Hb.
    apply Qabs_Qle_condition. split; nra.
Qed.

Lemma round_nearest_even_int (x : Q) (k : Z) :
  (x == inject_Z k)%Q -> round_nearest_even x = k.
Proof.
  intros Hx. unfold round_nearest_even.
  assert (Hf : Qfloor x = k) by (rewrite Hx; apply Qfloor_Z).
  rewrite Hf.
  assert (Hc : Qcompare (x - inject_Z k) (1 # 2) = Lt)
    by (apply Qlt_alt; rewrite Hx; unfold Qminus; rewrite Qplus_opp_r;
        reflexivity).
  now rewrite Hc.
Qed.

Lemma binade_upper (a : Q) :
  binade a <= Z.log2 (Qnum a) - Z.log2 (Zpos (Qden a)).
Proof.
  unfold binade. destruct (Qle_bool _ _); lia.
Qed.

Lemma round64_int (z : Z) :
  0 <= z < 2 ^ 53 -> (round64 (inject_Z z) == inject_Z z)%Q.
Proof.
  intros [Hz0 Hz]. unfold round64. cbn [inject_Z Qnum].
  destruct z as [|p|p]; [reflexivity| |lia].
  rewrite Qred_correct. cbn [Z.ltb Z.compare].
  set (a := inject_Z (Z.pos p)). change (Qabs a) with a.
  pose proof (binade_upper a) as Hb. cbn [a inject_Z Qnum Qden] in Hb.
  change (Z.log2 1) with 0 in Hb.
  assert (Hl : Z.log2 (Z.pos p) < 53) by (apply Z.log2_lt_pow2; lia).
  set (e := binade a - 52) in *.
  assert (He : e <= 0) by (unfold e; lia).
  assert (Hpow : (2 ^ e == / inject_Z (2 ^ (- e)))%Q).
  { replace e with (- - e) at 1 by lia. rewrite Qpower_opp.
    rewrite two_power_Z by lia. reflexivity. }
  assert (Hpos : 0 < 2 ^ (- e)) by (apply Z.pow_pos_nonneg; lia).
  assert (Hx : (a / 2 ^ e == inject_Z (Z.pos p * 2 ^ (- e)))%Q).
  { rewrite Hpow, inject_Z_mult. unfold a. field.
    change 0%Q with (inject_Z 0). rewrite inject_Z_injective. lia. }
  rewrite (round_nearest_even_int _ _ Hx), Hpow, inject_Z_mult. unfold a.
  field. change 0%Q with (inject_Z 0). rewrite inject_Z_injective. lia.
Qed.




(** The capacity is the floor of the rounded quotient.  On A4 with the
    default options and a canvas 2296 px wide it is 3345 px; with a
    margin of 51.03 pt it is 3443 px, where the quotient of the exact
    lengths, just above 3444, would give 3444. *)
Lemma capacity_is_floor_of_rounded_quotient :
  pageSliceHeightPx a4 default_options a4_canvas = 3345 /\
  pageSliceHeightPx a4 margin_5103_options a4_canvas = 3443 /\
  Qfloor (((84189 # 100) - 2 * (5103 # 100))
          / (((59528 # 100) - 2 * (5103 # 100)) / 2296)) = 3444.
Proof.
  repeat split; vm_compute; reflexivity.
Qed.




(** C6.  [generatePDF] rejects an empty array, and anything that is not an
    array, with the error "No items to export." and leaves the world as it
    found it: no wrapper is created and nothing is attached to the render
    host. *)
Theorem empty_input_is_rejected (b : Browser) (o : Options) (w : World) :
  generatePDF b o (Array []) w = (w, Throw (Error "No items to export.")) /\
  generatePDF b o NotArray w = (w, Throw (Error "No items to export.")).
Proof.
  split; reflexivity.
Qed.

Lemma remove_first_fresh (n : nat) (l : list nat) :
  ~ In n l -> remove_first n (l ++ [n]) = l.
Proof.
  induction l as [|x l IH]; intros Hfresh; cbn.
  - now rewrite Nat.eqb_refl.
  - destruct (Nat.eqb x n) eqn:Hx.
    + apply Nat.eqb_eq in Hx. exfalso. apply Hfresh. now left.
    + f_equal. apply IH. intros Hin. apply Hfresh. now right.
Qed.

Lemma existsb_last (n : nat) (l : list nat) :
  existsb (Nat.eqb n) (l ++ [n]) = true.
Proof.
  rewrite existsb_app. cbn. rewrite Nat.eqb_refl. now rewrite !orb_true_r.
Qed.

(** C9.  The wrapper is not released on every exit path.  [generatePDF]
    removes it from the render host in a statement of its own after the
    slicing (line 83), with no [try]/[finally] around the steps before
    it: when MathJax rejects, the run ends with that rejection and the
    wrapper, node 0, is still attached to the render host. *)
Lemma wrapper_leaks_when_typeset_fails :
  snd (generatePDF failing_typeset default_options (Array [one_item])
         empty_world)
  = Throw (Rejected "MathJax") /\
  renderHost (fst (generatePDF failing_typeset default_options
                     (Array [one_item]) empty_world))
  = [0%nat] /\
  renderHost (fst (generatePDF failing_typeset default_options
                     (Array [one_item]) empty_world))
  <> renderHost empty_world.
Proof.
  repeat split. cbn. discriminate.
Qed.

(** The exit paths of [generatePDF] one by one.  Once typesetting,
    capture and slicing have succeeded the wrapper is detached, before
    the document is assembled, so also when assembly then fails.  When
    typesetting, capture or slicing fails, the run ends with that failure
    and the wrapper is still attached. *)
Lemma wrapper_released_after_slicing (b : Browser) (o : Options)
    (item : Item) (items : list Item) (w : World) :
  ~ In (nextNode w) (renderHost w) ->
  let wrapper := nextNode w in
  let run := generatePDF b o (Array (item :: items)) w in
  (forall bigCanvas sl,
     typeset b wrapper = Ok tt ->
     html2canvas b wrapper (rasterScale o) = Ok bigCanvas ->
     _computePageSlices (pageSize b) o (measure b wrapper) bigCanvas = Ok sl ->
     renderHost (fst run) = renderHost w) /\
  (forall e, typeset b wrapper = Throw e ->
     run = (mkWorld (S wrapper) (renderHost w ++ [wrapper]) (saved w),
            Throw e)) /\
  (forall e, typeset b wrapper = Ok tt ->
     html2canvas b wrapper (rasterScale o) = Throw e ->
     run = (mkWorld (S wrapper) (renderHost w ++ [wrapper]) (saved w),
            Throw e)) /\
  (forall bigCanvas e, typeset b wrapper = Ok tt ->
     html2canvas b wrapper (rasterScale o) = Ok bigCanvas ->
     _computePageSlices (pageSize b) o (measure b wrapper) bigCanvas = Throw e ->
     run = (mkWorld (S wrapper) (renderHost w ++ [wrapper]) (saved w),
            Throw e)).
Proof.
  intros Hfresh wrapper run. subst run wrapper.
  unfold generatePDF, bind, lift, _buildContinuousDocument, removeChild,
    _buildPdfFromSlices.
  cbn [length Nat.eqb nextNode renderHost saved].
  repeat split.
  - intros bigCanvas sl -> -> ->.
    cbn [nextNode renderHost saved]. rewrite existsb_last.
    cbn [nextNode renderHost saved]. rewrite remove_first_fresh by assumption.
    destruct (place_slices _ _ _ _ _); reflexivity.
  - intros e ->. reflexivity.
  - intros e -> ->. reflexivity.
  - intros bigCanvas e -> -> ->. reflexivity.
Qed.

Lemma wrapper_released_after_slicing_witness :
  ~ In (nextNode empty_world) (renderHost empty_world) /\
  renderHost (fst (generatePDF good_browser default_options
                     (Array [one_item]) empty_world))
  = renderHost empty_world.
Proof.
  split; [intros H; exact H|].
  refine (proj1 (wrapper_released_after_slicing good_browser default_options
                   one_item [] empty_world (fun H => H))
             one_card_canvas
             [slice_of (geometry a4 default_options one_card_canvas) 0 280]
             _ _ _);
    reflexivity.
Defined.

(** * Further properties of the slicer *)

(** Between cards, the inner loop keeps [usedPx] either at 0 or equal to
    the height packed so far, which is within the capacity. *)
Lemma inner_loop_used (cap : Z) (rest : list Rect) :
  forall st,
    usedPx st = 0 \/
    (usedPx st = lastCardBottomPx st - pageStartPx st /\ usedPx st <= cap) ->
    let st' := inner_loop cap rest st in
    usedPx st' = 0 \/
    (usedPx st' = lastCardBottomPx st' - pageStartPx st' /\ usedPx st' <= cap).
Proof.
  induction rest as [|c rest IH]; intros st Hst; cbn [inner_loop]; [exact Hst|].
  destruct (_ <=? cap) eqn:Hfit.
  - apply IH. right. cbn. apply Z.leb_le in Hfit. lia.
  - cbn. destruct (usedPx st =? 0) eqn:Hzero.
    + left. now apply Z.eqb_eq.
    + exact Hst.
Qed.

Lemma outer_body_height (g : Geometry) (cap : Z) (cards : list Rect)
    (s s' : SlicerState) :
  outer_body g cap cards s = Ok s' ->
  exists pushed,
    slices s' = slices s ++ [pushed] /\
    yEndPx pushed - yStartPx pushed <= cap.
Proof.
  unfold outer_body.
  pose proof (inner_loop_used cap (skipn (s_currentIndex s) cards)
                (mkPageState (s_pageStartPx s) 0 (s_pageStartPx s)
                             (s_currentIndex s)) (or_introl eq_refl)) as Hused.
  cbn zeta in Hused.
  destruct (0 <? usedPx _) eqn:Hpos.
  - intros [= <-]. eexists. split; [reflexivity|]. cbn.
    apply Z.ltb_lt in Hpos. lia.
  - destruct (nth_error cards _) as [c|]; [|discriminate].
    intros [= <-]. eexists. split; [reflexivity|]. cbn. lia.
Qed.

Lemma outer_loop_height (g : Geometry) (cap : Z) (cards : list Rect) :
  forall (fuel : nat) (s : SlicerState) (sl : list Slice),
    Forall (fun x => yEndPx x - yStartPx x <= cap) (slices s) ->
    outer_loop fuel g cap cards s = Ok sl ->
    Forall (fun x => yEndPx x - yStartPx x <= cap) sl.
Proof.
  induction fuel as [|fuel IH]; intros s sl Hacc; cbn [outer_loop];
    destruct (s_currentIndex s <? length cards)%nat;
    try discriminate; try (intros [= <-]; assumption).
  destruct (outer_body g cap cards s) as [s1| |] eqn:Hbody; try discriminate.
  apply outer_body_height in Hbody as (pushed & Hpush & Hle).
  apply IH. rewrite Hpush. apply Forall_app. split; [assumption|].
  constructor; [assumption | constructor].
Qed.

(** X1.  Whatever the card rectangles, no slice a run returns is taller
    than the page capacity. *)
Theorem slice_height_within_capacity (g : Geometry) (cap : Z)
    (cards : list Rect) (sl : list Slice) :
  pack_slices g cap cards = Ok sl ->
  Forall (fun s => yEndPx s - yStartPx s <= cap) sl.
Proof.
  apply outer_loop_height. constructor.
Qed.

Lemma slice_height_within_capacity_witness :
  Forall (fun s => yEndPx s - yStartPx s <= 1100)
         [slice_of a4_geometry 0 1024; slice_of a4_geometry 1048 1548].
Proof.
  apply (slice_height_within_capacity a4_geometry 1100 scenarioA).
  reflexivity.
Defined.

Lemma pxToPt_positive (ps : PageSizeOf) (o : Options) (bigCanvas : Canvas) :
  0 < width bigCanvas < 2 ^ 53 ->
  (0 < g_usableWidthPt (geometry ps o bigCanvas))%Q ->
  (0 < g_pxToPt (geometry ps o bigCanvas))%Q.
Proof.
  intros Hw Hu. cbn [geometry g_pxToPt g_usableWidthPt] in *.
  unfold js_div, js_number. set (w := js_sub _ _) in *.
  assert (HWint : (round64 (inject_Z (width bigCanvas))
                   == inject_Z (width bigCanvas))%Q)
    by (apply round64_int; lia).
  assert (HW : (0 < round64 (inject_Z (width bigCanvas)))%Q)
    by (rewrite HWint; change 0%Q with (inject_Z 0);
        rewrite <- Zlt_Qlt; lia).
  assert (Hc : (0 < w / round64 (inject_Z (width bigCanvas)))%Q)
    by (apply Qlt_shift_div_l; [assumption | lra]).
  pose proof (round64_error (w / round64 (inject_Z (width bigCanvas))))
    as Herr.
  set (c := (w / round64 (inject_Z (width bigCanvas)))%Q) in *.
  rewrite (Qabs_pos c) in Herr by lra.
  apply Qabs_Qle_condition in Herr. lra.
Qed.

Lemma height_bound (uH p H capq h : Q) :
  (0 < p)%Q -> (0 <= uH)%Q -> (0 <= H)%Q -> (H <= capq)%Q ->
  (Qabs (capq - uH / p) <= Qabs (uH / p) * (1 # 9007199254740992))%Q ->
  (Qabs (h - H * p) <= Qabs (H * p) * (1 # 9007199254740992))%Q ->
  (h <= uH * (1 + (1 # 2251799813685248)))%Q.
Proof.
  intros Hp HuH HH Hcap Hc Hh.
  assert (Hd : (0 <= uH / p)%Q) by (apply Qle_shift_div_l; lra).
  assert (Hdp : (uH / p * p == uH)%Q) by (field; lra).
  set (d := (uH / p)%Q) in *.
  rewrite (Qabs_pos d) in Hc by assumption.
  apply Qabs_Qle_condition in Hc. destruct Hc as [_ Hc].
  assert (HHp : (0 <= H * p)%Q) by (apply Qmult_le_0_compat; lra).
  rewrite (Qabs_pos (H * p)) in Hh by assumption.
  apply Qabs_Qle_condition in Hh. destruct Hh as [_ Hh].
  assert (Hle : (H <= d * (1 + (1 # 9007199254740992)))%Q) by lra.
  assert (Hprod : (H * p <= d * (1 + (1 # 9007199254740992)) * p)%Q)
    by (apply Qmult_le_compat_r; lra).
  assert (E : (d * (1 + (1 # 9007199254740992)) * p
               == uH * (1 + (1 # 9007199254740992)))%Q)
    by (rewrite <- Hdp; ring).
  rewrite E in Hprod. set (Hp_ := (H * p)%Q) in *. lra.
Qed.

(** X2.  On a canvas of positive width and a page of positive usable
    width and height, every image the assembler places starts at
    [(margin, margin)], is exactly the usable width wide, and is at most
    the usable height high up to the rounding of the double arithmetic:
    its height is at most [usableHeightPt * (1 + 2^-51)]. *)
Theorem placed_image_fits_up_to_rounding (ps : PageSizeOf) (o : Options)
    (m : Measured) (bigCanvas : Canvas) (sl : list Slice) :
  0 < width bigCanvas < 2 ^ 53 ->
  (0 < g_usableWidthPt (geometry ps o bigCanvas))%Q ->
  (0 < g_usableHeightPt (geometry ps o bigCanvas))%Q ->
  _computePageSlices ps o m bigCanvas = Ok sl ->
  Forall
    (fun s =>
       let p := place_slice bigCanvas s in
       let g := geometry ps o bigCanvas in
       img_x p = js_number (pageMarginPt o) /\
       img_y p = js_number (pageMarginPt o) /\
       img_w p = g_usableWidthPt g /\
       (0 <= yEndPx s - yStartPx s < 2 ^ 53 ->
        (img_h p
         <= g_usableHeightPt g * (1 + (1 # 2251799813685248)))%Q))
    sl.
Proof.
  intros Hw Hu HuH Hrun.
  pose proof (pxToPt_positive ps o bigCanvas Hw Hu) as Hp.
  assert (Hgeo : Forall (carries (geometry ps o bigCanvas)) sl).
  { unfold _computePageSlices, pack_slices in Hrun.
    apply (outer_loop_carries _ _ _ _ (mkSlicerState [] 0 0%nat) _
             (Forall_nil _) Hrun). }
  assert (Hcap : Forall (fun x => yEndPx x - yStartPx x
                                  <= pageSliceHeightPx ps o bigCanvas) sl).
  { unfold _computePageSlices, pack_slices in Hrun.
    apply (outer_loop_height _ _ _ _ (mkSlicerState [] 0 0%nat) _
             (Forall_nil _) Hrun). }
  apply Forall_forall. intros s Hs.
  pose proof (proj1 (Forall_forall _ _) Hgeo s Hs) as Hcarry.
  pose proof (proj1 (Forall_forall _ _) Hcap s Hs) as Hle.
  cbn beta in Hle. unfold carries in Hcarry.
  assert (Hm : margin s = js_number (pageMarginPt o))
    by (rewrite Hcarry; reflexivity).
  assert (Hwd : usableWidthPt s = g_usableWidthPt (geometry ps o bigCanvas))
    by (rewrite Hcarry; reflexivity).
  assert (Hpx : pxToPt s = g_pxToPt (geometry ps o bigCanvas))
    by (rewrite Hcarry; reflexivity).
  cbn [place_slice img_x img_y img_w img_h]. cbn zeta. rewrite Hm, Hwd, Hpx.
  split; [reflexivity|]. split; [reflexivity|]. split; [reflexivity|].
  intros Hh. unfold js_mul, js_number.
  set (g := geometry ps o bigCanvas) in *.
  assert (HHint : (round64 (inject_Z (yEndPx s - yStartPx s))
                   == inject_Z (yEndPx s - yStartPx s))%Q)
    by (apply round64_int; lia).
  pose proof (round64_error
                (round64 (inject_Z (yEndPx s - yStartPx s)) * g_pxToPt g))
    as Herr.
  assert (Hq : (round64 (inject_Z (yEndPx s - yStartPx s)) * g_pxToPt g
                == inject_Z (yEndPx s - yStartPx s) * g_pxToPt g)%Q)
    by (rewrite HHint; reflexivity).
  apply (height_bound (g_usableHeightPt g) (g_pxToPt g)
           (inject_Z (yEndPx s - yStartPx s))
           (js_div (g_usableHeightPt g) (g_pxToPt g))).
  - assumption.
  - lra.
  - change 0%Q with (inject_Z 0). rewrite <- Zle_Qle. lia.
  - apply Qle_trans with (inject_Z (pageSliceHeightPx ps o bigCanvas)).
    + rewrite <- Zle_Qle. exact Hle.
    + unfold pageSliceHeightPx, Math_floor. fold g. apply Qfloor_le.
  - unfold js_div. apply round64_error.
  - rewrite <- Hq. exact Herr.
Qed.

Lemma placed_image_fits_up_to_rounding_witness :
  (0 < width one_card_canvas < 2 ^ 53 /\
   (0 < g_usableWidthPt (geometry a4 default_options one_card_canvas))%Q /\
   (0 < g_usableHeightPt (geometry a4 default_options one_card_canvas))%Q) /\
  Forall
    (fun s =>
       let p := place_slice one_card_canvas s in
       let g := geometry a4 default_options one_card_canvas in
       img_x p = js_number (pageMarginPt default_options) /\
       img_y p = js_number (pageMarginPt default_options) /\
       img_w p = g_usableWidthPt g /\
       (0 <= yEndPx s - yStartPx s < 2 ^ 53 ->
        (img_h p
         <= g_usableHeightPt g * (1 + (1 # 2251799813685248)))%Q))
    [slice_of (geometry a4 default_options one_card_canvas) 0 280].
Proof.
  split;
    [split; [split; reflexivity |
             split; vm_compute; reflexivity] |].
  apply (placed_image_fits_up_to_rounding a4 default_options one_card
           one_card_canvas);
    [split; reflexivity | vm_compute; reflexivity | vm_compute; reflexivity
     | vm_compute; reflexivity].
Defined.

(** X3.  When the whole layout, from the top of its first card to the
    bottom of its last, is no taller than the capacity, the slicer returns
    exactly one slice, which spans it all. *)
Theorem layout_within_capacity_is_one_page (g : Geometry) (cap : Z)
    (c0 : Rect) (rest : list Rect) :
  laid_out (c0 :: rest) = true ->
  cardBottomPx (last rest c0) - topPx c0 <= cap ->
  pack_slices g cap (c0 :: rest)
  = Ok [slice_of g (topPx c0) (cardBottomPx (last rest c0))].
Proof.
  intros Hl Hfit.
  destruct (pack_slices_pages g cap (c0 :: rest) Hl)
    as (sl & groups & Hrun & Hcat & Hpages & Hgeo).
  rewrite Hrun. f_equal.
  destruct Hpages as [|grp groups s sl Hpage Hmax Hrest]; [discriminate|].
  cbn [concat] in Hcat.
  assert (Hstart : exists g1, grp = c0 :: g1 /\ yStartPx s = topPx c0).
  { destruct Hpage as [(c & g1 & -> & Hs & _) | (c & -> & _ & Hs & _)];
      injection Hcat as -> _; eauto. }
  destruct Hstart as (g1 & -> & Hs).
  destruct Hrest as [|grp2 groups s2 sl Hpage2 _ _].
  - cbn [concat app] in Hcat. injection Hcat as Hcat.
    rewrite app_nil_r in Hcat. subst g1.
    inversion Hgeo as [|? ? Hcarry _]; subst. f_equal.
    destruct Hpage as [(c & g2 & [= <- <-] & _ & He & _)
                      | (c & [= <- Hnil] & Hover & _)].
    + rewrite Hcarry, Hs, He. reflexivity.
    + subst rest. cbn in Hfit. unfold cardBottomPx in Hfit. lia.
  - exfalso.
    assert (Hhd : exists c' g2, grp2 = c' :: g2)
      by (destruct Hpage2 as [(c & g2 & -> & _) | (c & -> & _)]; eauto).
    destruct Hhd as (c' & g2 & ->).
    specialize (Hmax c' eq_refl).
    assert (Hin : In c' (c0 :: rest)).
    { rewrite <- Hcat. apply in_or_app. right. now left. }
    destruct (laid_out_span rest c0 Hl c' Hin). lia.
Qed.

Lemma layout_within_capacity_is_one_page_witness :
  (laid_out scenarioA = true /\ 1548 - 0 <= 1600) /\
  pack_slices a4_geometry 1600 scenarioA = Ok [slice_of a4_geometry 0 1548].
Proof.
  split; [split; [reflexivity | lia] |].
  apply (layout_within_capacity_is_one_page a4_geometry 1600
           (mkRect 0 500) [mkRect 524 500; mkRect 1048 500]);
    [reflexivity | cbn; lia].
Defined.

(** The greedy pages stay ahead of any other way of cutting the layout
    into consecutive runs that fit. *)
Lemma Pages_fewest (cap : Z) (groups : list (list Rect)) (sl : list Slice) :
  Pages cap groups sl ->
  forall alt pre,
    laid_out (pre ++ concat groups) = true ->
    concat alt = pre ++ concat groups ->
    Forall (fits cap) alt ->
    (length groups <= length alt)%nat.
Proof.
  induction 1 as [|grp groups s sl Hpage Hmax Hrest IH]; [cbn; lia|].
  assert (Hgrp : exists c g, grp = c :: g /\ yStartPx s = topPx c).
  { destruct Hpage as [(c & g & -> & Hs & _) | (c & -> & _ & Hs & _)]; eauto. }
  destruct Hgrp as (c & g & -> & Hs).
  induction alt as [|a1 alt IHalt]; intros pre Hl Hcat Hfits.
  - cbn in Hcat. symmetry in Hcat. apply app_eq_nil in Hcat as [_ Hcat].
    discriminate.
  - inversion Hfits as [|? ? Hfit1 Hfits']; subst.
    cbn [concat length] in *.
    apply app_eq_app in Hcat as (l & [[Ha Hb] | [Ha Hb]]).
    + (* the first run of [alt] reaches into the greedy page *)
      apply app_eq_app in Hb as (l2 & [[Hc Hd] | [Hc Hd]]).
      * (* it ends inside the page *)
        apply le_n_S. apply (IH alt l2); [|assumption|assumption].
        rewrite Hc in Hl. apply laid_out_app in Hl.
        rewrite <- app_assoc in Hl. now apply laid_out_app in Hl.
      * (* it covers the page *)
        destruct l2 as [|c' l2].
        -- apply le_n_S. apply (IH alt []); [|now rewrite Hd|assumption].
           apply laid_out_app in Hl. cbn [app].
           now apply (laid_out_app (c :: g)).
        -- exfalso. rewrite Hd in Hmax. specialize (Hmax c' eq_refl).
           assert (Hla : laid_out a1 = true).
           { rewrite Hd in Hl. subst a1 l.
             replace (pre ++ (c :: g) ++ (c' :: l2) ++ concat alt)
               with ((pre ++ (c :: g) ++ c' :: l2) ++ concat alt) in Hl
               by (now rewrite <- !app_assoc).
             now apply laid_out_split in Hl. }
           subst a1 l. destruct (pre ++ (c :: g) ++ c' :: l2) as [|c1 g1] eqn:Ha1;
             [destruct pre; discriminate|].
           cbn [fits] in Hfit1.
           assert (Hin : forall y, In y ((c :: g) ++ c' :: l2) -> In y (c1 :: g1))
             by (intros y Hy; rewrite <- Ha1; apply in_or_app; now right).
           destruct (laid_out_span g1 c1 Hla c (Hin c (or_introl eq_refl)))
             as [Htop _].
           destruct (laid_out_span g1 c1 Hla c') as [_ Hbot].
           { apply Hin. apply in_or_app. right. now left. }
           lia.
    + (* the first run of [alt] ends before the greedy page starts *)
      apply Nat.le_trans with (length alt); [|lia].
      apply (IHalt l); [|assumption|assumption].
      rewrite Ha, <- app_assoc in Hl. now apply laid_out_app in Hl.
Qed.

(** X4.  The greedy slicer uses the fewest pages: if the layout can be cut
    into consecutive runs of whole cards that each fit the capacity, the
    slicer returns no more slices than there are runs. *)
Theorem greedy_uses_fewest_pages (g : Geometry) (cap : Z)
    (cards : list Rect) (alt : list (list Rect)) :
  laid_out cards = true ->
  concat alt = cards ->
  Forall (fits cap) alt ->
  exists sl,
    pack_slices g cap cards = Ok sl /\ (length sl <= length alt)%nat.
Proof.
  intros Hl Hcat Hfits.
  destruct (pack_slices_pages g cap cards Hl)
    as (sl & groups & Hrun & Hcat' & Hpages & _).
  exists sl. split; [assumption|].
  rewrite <- (Forall2_length (Pages_Forall2 _ _ _ Hpages)).
  apply (Pages_fewest cap groups sl Hpages alt []); cbn [app];
    [now rewrite Hcat' | now rewrite Hcat' | assumption].
Qed.

Lemma greedy_uses_fewest_pages_witness :
  (laid_out scenarioA = true /\
   Forall (fits 1100)
          [[mkRect 0 500]; [mkRect 524 500]; [mkRect 1048 500]]) /\
  exists sl,
    pack_slices a4_geometry 1100 scenarioA = Ok sl /\ (length sl <= 3)%nat.
Proof.
  assert (H : Forall (fits 1100)
                     [[mkRect 0 500]; [mkRect 524 500]; [mkRect 1048 500]])
    by (repeat constructor; cbn; lia).
  split; [split; [reflexivity | exact H] |].
  apply (greedy_uses_fewest_pages a4_geometry 1100 scenarioA
           [[mkRect 0 500]; [mkRect 524 500]; [mkRect 1048 500]]);
    [reflexivity | reflexivity | exact H].
Defined.

(** * From the browser's layout to the layout invariant *)





(** * Further properties of the driver *)

(** X6.  A run of [generatePDF] saves one document or none.  When it
    resolves, exactly one document has been saved, under the file name of
    the options, with one page per slice of the captured canvas (each
    page holding the image of its slice); when it rejects, at whatever
    stage, nothing has been saved. *)
Theorem generatePDF_saves_one_document_or_none (b : Browser) (o : Options)
    (items : JsValue Item) (w : World) :
  let run := generatePDF b o items w in
  match snd run with
  | Ok _ =>
      exists bigCanvas sl,
        html2canvas b (nextNode w) (rasterScale o) = Ok bigCanvas /\
        _computePageSlices (pageSize b) o (measure b (nextNode w)) bigCanvas
        = Ok sl /\
        saved (fst run)
        = saved w
          ++ [(filename o,
               match sl with
               | [] => new_pdf
               | _ :: _ => map (fun s => [place_slice bigCanvas s]) sl
               end)]
  | Throw _ | OutOfFuel => saved (fst run) = saved w
  end.
Proof.
  unfold generatePDF.
  destruct items as [|l]; [reflexivity|].
  destruct l as [|item l]; [reflexivity|].
  unfold bind, lift, _buildContinuousDocument, removeChild,
    _buildPdfFromSlices.
  cbn [length Nat.eqb nextNode renderHost saved].
  destruct (typeset b (nextNode w)); try reflexivity.
  destruct (html2canvas b (nextNode w) (rasterScale o)) as [bigCanvas| |];
    try reflexivity.
  destruct (_computePageSlices _ _ _ _) as [sl| |] eqn:Hslices;
    try reflexivity.
  cbn [nextNode renderHost saved]. rewrite existsb_last.
  cbn [nextNode renderHost saved].
  destruct (place_slices _ _ _ _ _) as [pdf| |] eqn:Hplace; try reflexivity.
  apply place_slices_pages in Hplace. cbn [fst snd saved].
  exists bigCanvas, sl. subst pdf. auto.
Qed.

(** * De-duplication *)

Lemma first_keys_In (l : list string) (k : string) :
  In k (first_keys l) <-> In k l.
Proof.
  unfold first_keys. rewrite <- in_rev, nodup_In, <- in_rev. reflexivity.
Qed.

Lemma first_keys_NoDup (l : list string) : NoDup (first_keys l).
Proof.
  unfold first_keys. apply NoDup_rev, NoDup_nodup.
Qed.

Lemma first_keys_snoc (l : list string) (k : string) :
  first_keys (l ++ [k])
  = if in_dec string_dec k l then first_keys l else first_keys l ++ [k].
Proof.
  unfold first_keys. rewrite rev_app_distr. cbn [rev app nodup].
  destruct (in_dec string_dec k (rev l)) as [Hin | Hout];
    destruct (in_dec string_dec k l) as [Hin' | Hout'];
    try reflexivity.
  - exfalso. apply Hout'. now apply in_rev.
  - exfalso. apply Hout. now apply in_rev in Hin'.
Qed.

Lemma map_get_None {V : Type} (k : string) (m : JsMap V) :
  map_get k m = None <-> ~ In k (map fst m).
Proof.
  induction m as [|[k' v] m IH]; cbn; [tauto|].
  destruct (String.eqb k' k) eqn:Hk.
  - apply String.eqb_eq in Hk. split; [discriminate | tauto].
  - apply String.eqb_neq in Hk. rewrite IH. tauto.
Qed.

Lemma map_set_absent {V : Type} (k : string) (v : V) (m : JsMap V) :
  map_get k m = None -> map_set k v m = m ++ [(k, v)].
Proof.
  induction m as [|[k' v'] m IH]; cbn; [reflexivity|].
  destruct (String.eqb k' k); [discriminate|].
  intros H. now rewrite IH.
Qed.

Lemma map_set_present {V : Type} (k : string) (v old : V) (m : JsMap V) :
  map_get k m = Some old ->
  exists m1 m2,
    m = m1 ++ (k, old) :: m2 /\
    map_set k v m = m1 ++ (k, v) :: m2.
Proof.
  induction m as [|[k' v'] m IH]; cbn; [discriminate|].
  destruct (String.eqb k' k) eqn:Hk.
  - apply String.eqb_eq in Hk. subst k'. intros [= ->].
    exists [], m. split; reflexivity.
  - intros H. destruct (IH H) as (m1 & m2 & -> & ->).
    exists ((k', v') :: m1), m2. split; reflexivity.
Qed.

(** With distinct keys, an entry of the map is what [get] returns. *)
Lemma map_get_In {V : Type} (k : string) (v : V) (m : JsMap V) :
  NoDup (map fst m) -> In (k, v) m -> map_get k m = Some v.
Proof.
  induction m as [|[k' v'] m IH]; cbn; [easy|].
  intros Hnd [Heq | Hin].
  - injection Heq as -> ->. now rewrite String.eqb_refl.
  - inversion Hnd as [|? ? Hout Hnd']; subst.
    destruct (String.eqb k' k) eqn:Hk.
    + apply String.eqb_eq in Hk. subst k'. exfalso. apply Hout.
      change k with (fst (k, v)). now apply in_map.
    + now apply IH.
Qed.

Lemma kept_in_later (K : Item -> string) (seen : list Item) (k : string)
    (v it : Item) :
  kept_in K seen k v ->
  (K it = k ->
   (String.length (i_content it) <= String.length (i_content v))%nat) ->
  kept_in K (seen ++ [it]) k v.
Proof.
  intros (Hk & pre & post & -> & Hpre & Hpost) Hit. split; [assumption|].
  exists pre, (post ++ [it]). split; [now rewrite <- app_assoc|].
  split; [assumption|].
  intros y Hy Hky. apply in_app_or in Hy as [Hy | [<- | []]]; auto.
Qed.

(** Every item of [seen] with the key of a kept item is no longer than
    it. *)
Lemma kept_in_longest (K : Item -> string) (seen : list Item) (k : string)
    (v y : Item) :
  kept_in K seen k v -> In y seen -> K y = k ->
  (String.length (i_content y) <= String.length (i_content v))%nat.
Proof.
  intros (Hk & pre & post & -> & Hpre & Hpost) Hy Hky.
  apply in_app_or in Hy as [Hy | [<- | Hy]]; auto.
  apply Nat.lt_le_incl. auto.
Qed.

Lemma dedupe_step_inv (norm : option string -> string -> string)
    (seen : list Item) (best : JsMap Item) (it : Item) :
  dedupe_inv (key_of norm) seen best ->
  dedupe_inv (key_of norm) (seen ++ [it]) (dedupe_step norm best it).
Proof.
  intros [Hkeys Hkept]. unfold dedupe_step. fold (key_of norm it).
  assert (Hnd : NoDup (map fst best))
    by (rewrite Hkeys; apply first_keys_NoDup).
  unfold dedupe_inv. rewrite map_app. cbn [map].
  destruct (map_get (key_of norm it) best) as [existing|] eqn:Hget.
  - (* the key is present *)
    assert (Hpresent : In (key_of norm it) (map (key_of norm) seen)).
    { apply first_keys_In. rewrite <- Hkeys.
      destruct (in_dec string_dec (key_of norm it) (map fst best))
        as [H | H]; [assumption|].
      apply map_get_None in H. congruence. }
    assert (Hsame : first_keys (map (key_of norm) seen ++ [key_of norm it])
                    = first_keys (map (key_of norm) seen)).
    { rewrite first_keys_snoc.
      destruct (in_dec string_dec _ _); [reflexivity | contradiction]. }
    destruct (map_set_present _ it _ _ Hget) as (m1 & m2 & Hbest & Hset).
    assert (Hex : kept_in (key_of norm) seen (key_of norm it) existing).
    { apply Hkept. rewrite Hbest. apply in_or_app. right. now left. }
    destruct (String.length (i_content existing)
              <? String.length (i_content it))%nat eqn:Hlonger.
    + apply Nat.ltb_lt in Hlonger. split.
      * rewrite Hsame, <- Hkeys, Hset, Hbest, !map_app. reflexivity.
      * intros k v Hin. rewrite Hset in Hin.
        apply in_app_or in Hin as [Hin | [Heq | Hin]].
        -- assert (Hin' : In (k, v) best)
             by (rewrite Hbest; apply in_or_app; now left).
           apply kept_in_later; [now apply Hkept|].
           intros Hk. exfalso.
           rewrite Hbest, map_app in Hnd. cbn [map fst] in Hnd.
           apply NoDup_remove_2 in Hnd. apply Hnd.
           apply in_or_app. left. rewrite Hk.
           change k with (fst (k, v)). now apply in_map.
        -- injection Heq as <- <-. split; [reflexivity|].
           exists seen, []. split; [reflexivity|]. split; [|easy].
           intros y Hy Hky.
           apply Nat.le_lt_trans with (String.length (i_content existing));
             [|assumption].
           now apply (kept_in_longest (key_of norm) seen (key_of norm it)).
        -- assert (Hin' : In (k, v) best)
             by (rewrite Hbest; apply in_or_app; right; now right).
           apply kept_in_later; [now apply Hkept|].
           intros Hk. exfalso.
           rewrite Hbest, map_app in Hnd. cbn [map fst] in Hnd.
           apply NoDup_remove_2 in Hnd. apply Hnd.
           apply in_or_app. right. rewrite Hk.
           change k with (fst (k, v)). now apply in_map.
    + apply Nat.ltb_ge in Hlonger. split; [now rewrite Hsame|].
      intros k v Hin. apply kept_in_later; [now apply Hkept|].
      intros Hk. rewrite <- Hk in Hin.
      rewrite (map_get_In _ _ _ Hnd Hin) in Hget. now injection Hget as ->.
  - (* the key is new *)
    assert (Habsent : ~ In (key_of norm it) (map (key_of norm) seen)).
    { rewrite <- first_keys_In, <- Hkeys. now apply map_get_None. }
    rewrite (map_set_absent _ _ _ Hget). split.
    + rewrite map_app, first_keys_snoc, Hkeys. cbn [map fst].
      destruct (in_dec string_dec _ _); [contradiction | reflexivity].
    + intros k v Hin. apply in_app_or in Hin as [Hin | [Heq | []]].
      * apply kept_in_later; [now apply Hkept|].
        intros Hk. exfalso. apply Habsent.
        rewrite <- first_keys_In, <- Hkeys, Hk.
        change k with (fst (k, v)). now apply in_map.
      * injection Heq as <- <-. split; [reflexivity|].
        exists seen, []. split; [reflexivity|]. split; [|easy].
        intros y Hy Hky. exfalso. apply Habsent.
        rewrite <- Hky. now apply in_map.
Qed.

Lemma dedupe_fold_inv (norm : option string -> string -> string)
    (items : list Item) :
  forall seen best,
    dedupe_inv (key_of norm) seen best ->
    dedupe_inv (key_of norm) (seen ++ items)
               (fold_left (dedupe_step norm) items best).
Proof.
  induction items as [|it items IH]; intros seen best Hinv; cbn [fold_left].
  - now rewrite app_nil_r.
  - replace (seen ++ it :: items) with ((seen ++ [it]) ++ items)
      by (now rewrite <- app_assoc).
    apply IH. now apply dedupe_step_inv.
Qed.

Lemma dedupe_final_inv (norm : option string -> string -> string)
    (items : list Item) :
  dedupe_inv (key_of norm) items (fold_left (dedupe_step norm) items []).
Proof.
  apply (dedupe_fold_inv norm items [] []). split; [reflexivity | easy].
Qed.

Lemma map_key_values (K : Item -> string) (best : JsMap Item) :
  (forall k v, In (k, v) best -> K v = k) ->
  map K (map_values best) = map fst best.
Proof.
  induction best as [|[k v] best IH]; intros H; [reflexivity|].
  cbn. f_equal; [apply H; now left|]. apply IH. intros k' v' Hin.
  apply H. now right.
Qed.

Lemma dedupe_keys (norm : option string -> string -> string)
    (items : list Item) :
  map (key_of norm) (dedupeByNumberedTitle norm items)
  = first_keys (map (key_of norm) items).
Proof.
  destruct (dedupe_final_inv norm items) as [Hkeys Hkept].
  unfold dedupeByNumberedTitle. rewrite <- Hkeys.
  apply map_key_values. intros k v Hin. now destruct (Hkept k v Hin).
Qed.

Lemma dedupe_kept (norm : option string -> string -> string)
    (items : list Item) (x : Item) :
  In x (dedupeByNumberedTitle norm items) ->
  kept_in (key_of norm) items (key_of norm x) x.
Proof.
  destruct (dedupe_final_inv norm items) as [_ Hkept].
  unfold dedupeByNumberedTitle, map_values. intros Hin.
  apply in_map_iff in Hin as ([k v] & <- & Hin). cbn [snd].
  pose proof (Hkept k v Hin) as Hk. destruct Hk as [Hkv Hrest].
  rewrite Hkv. split; assumption.
Qed.

(** X7.  The de-duplicated list has pairwise distinct keys, contains only
    items of the input, has an item for every key of the input, and is
    no longer than the input; this holds for any key function. *)
Theorem dedupe_keys_distinct_and_complete
    (norm : option string -> string -> string) (items : list Item) :
  let out := dedupeByNumberedTitle norm items in
  NoDup (map (key_of norm) out) /\
  (forall x, In x out -> In x items) /\
  (forall y, In y items ->
     exists x, In x out /\ key_of norm x = key_of norm y) /\
  (length out <= length items)%nat.
Proof.
  cbn zeta. pose proof (dedupe_keys norm items) as Hkeys.
  split; [|split; [|split]].
  - rewrite Hkeys. apply first_keys_NoDup.
  - intros x Hx. destruct (dedupe_kept norm items x Hx)
      as (_ & pre & post & Hsplit & _).
    rewrite Hsplit. apply in_or_app. right. now left.
  - intros y Hy.
    assert (Hin : In (key_of norm y)
                     (map (key_of norm) (dedupeByNumberedTitle norm items))).
    { rewrite Hkeys. apply first_keys_In. now apply in_map. }
    apply in_map_iff in Hin as (x & Hx & Hin). eauto.
  - rewrite <- (length_map (key_of norm) (dedupeByNumberedTitle norm items)),
      <- (length_map (key_of norm) items), Hkeys.
    apply NoDup_incl_length; [apply first_keys_NoDup|].
    intros k Hk. now apply first_keys_In.
Qed.

(** X8.  For every key the de-duplication keeps the item with the longest
    content and, among equally long ones, the first: every earlier item
    of the input with the same key is strictly shorter than the item
    kept, and no later one is longer. *)
Theorem dedupe_keeps_longest_first_seen
    (norm : option string -> string -> string) (items : list Item)
    (x : Item) :
  In x (dedupeByNumberedTitle norm items) ->
  exists pre post,
    items = pre ++ x :: post /\
    (forall y, In y pre -> key_of norm y = key_of norm x ->
       (String.length (i_content y) < String.length (i_content x))%nat) /\
    (forall y, In y post -> key_of norm y = key_of norm x ->
       (String.length (i_content y) <= String.length (i_content x))%nat).
Proof.
  intros Hx. now destruct (dedupe_kept norm items x Hx) as [_ H].
Qed.

Lemma dedupe_keeps_longest_first_seen_witness :
  In item_def_long
     (dedupeByNumberedTitle by_type [item_def_short; item_thm; item_def_long])
  /\
  exists pre post,
    [item_def_short; item_thm; item_def_long] = pre ++ item_def_long :: post /\
    (forall y, In y pre -> key_of by_type y = key_of by_type item_def_long ->
       (String.length (i_content y)
        < String.length (i_content item_def_long))%nat) /\
    (forall y, In y post -> key_of by_type y = key_of by_type item_def_long ->
       (String.length (i_content y)
        <= String.length (i_content item_def_long))%nat).
Proof.
  split; [left; reflexivity|].
  apply (dedupe_keeps_longest_first_seen by_type
           [item_def_short; item_thm; item_def_long] item_def_long).
  left. reflexivity.
Defined.

(** X9.  The de-duplicated list is in the order in which the keys first
    occur in the input, also when a later, longer item replaced the one
    first kept for a key. *)
Theorem dedupe_orders_by_first_occurrence
    (norm : option string -> string -> string) (items : list Item) :
  map (key_of norm) (dedupeByNumberedTitle norm items)
  = first_keys (map (key_of norm) items).
Proof.
  apply dedupe_keys.
Qed.

Lemma dedupe_fold_distinct (norm : option string -> string -> string)
    (items : list Item) :
  forall best,
    NoDup (map (key_of norm) items) ->
    (forall y, In y items -> map_get (key_of norm y) best = None) ->
    fold_left (dedupe_step norm) items best
    = best ++ map (fun it => (key_of norm it, it)) items.
Proof.
  induction items as [|it items IH]; intros best Hnd Hnew;
    cbn [fold_left map]; [now rewrite app_nil_r|].
  inversion Hnd as [|? ? Hout Hnd']; subst.
  unfold dedupe_step at 2. fold (key_of norm it).
  rewrite (Hnew it (or_introl eq_refl)).
  rewrite (map_set_absent _ _ _ (Hnew it (or_introl eq_refl))).
  rewrite IH; [now rewrite <- app_assoc | assumption |].
  intros y Hy. apply map_get_None. rewrite map_app. cbn [map fst].
  intros Hin. apply in_app_or in Hin as [Hin | [Heq | []]].
  - now apply (map_get_None _ best) in Hin; [|apply Hnew; now right].
  - apply Hout. rewrite Heq. now apply in_map.
Qed.

Lemma dedupe_distinct (norm : option string -> string -> string)
    (items : list Item) :
  NoDup (map (key_of norm) items) ->
  dedupeByNumberedTitle norm items = items.
Proof.
  intros Hnd. unfold dedupeByNumberedTitle.
  rewrite (dedupe_fold_distinct norm items [] Hnd) by reflexivity.
  cbn [app]. unfold map_values. rewrite map_map. cbn [snd]. apply map_id.
Qed.

(** X10.  An input whose keys are already pairwise distinct comes back
    unchanged: nothing is dropped and nothing is reordered. *)
Theorem dedupe_leaves_distinct_input_alone
    (norm : option string -> string -> string) (items : list Item) :
  NoDup (map (key_of norm) items) ->
  dedupeByNumberedTitle norm items = items.
Proof.
  apply dedupe_distinct.
Qed.

Lemma dedupe_leaves_distinct_input_alone_witness :
  NoDup (map (key_of by_type) [item_thm; item_def_short]) /\
  dedupeByNumberedTitle by_type [item_thm; item_def_short]
  = [item_thm; item_def_short].
Proof.
  assert (H : NoDup (map (key_of by_type) [item_thm; item_def_short])).
  { repeat constructor; cbn; intuition discriminate. }
  split; [exact H|].
  apply (dedupe_leaves_distinct_input_alone by_type
           [item_thm; item_def_short] H).
Defined.

(** X11.  De-duplication is idempotent: the client applies it again to
    what the server already de-duplicated, and that changes nothing. *)
Theorem dedupe_is_idempotent
    (norm : option string -> string -> string) (items : list Item) :
  dedupeByNumberedTitle norm (dedupeByNumberedTitle norm items)
  = dedupeByNumberedTitle norm items.
Proof.
  apply dedupe_distinct. rewrite dedupe_keys. apply first_keys_NoDup.
Qed.

Lemma removeDuplicates_loop_inv (lowerTrim : string -> string)
    (items : list Extraction) :
  forall processed seen unique,
    forallb has_content items = true ->
    (forall k, In k seen <-> In k (map (content_key lowerTrim) processed)) ->
    map (content_key lowerTrim) unique
    = first_keys (map (content_key lowerTrim) processed) ->
    (forall x, In x unique ->
       exists pre post,
         processed = pre ++ x :: post /\
         forall y, In y pre ->
           content_key lowerTrim y <> content_key lowerTrim x) ->
    exists out,
      removeDuplicates_loop lowerTrim items seen unique = Ok out /\
      map (content_key lowerTrim) out
      = first_keys (map (content_key lowerTrim) (processed ++ items)) /\
      (forall x, In x out ->
         exists pre post,
           processed ++ items = pre ++ x :: post /\
           forall y, In y pre ->
             content_key lowerTrim y <> content_key lowerTrim x).
Proof.
  induction items as [|it items IH];
    intros processed seen unique Hall Hseen Hkeys Hfirst;
    cbn [removeDuplicates_loop].
  - exists unique. rewrite app_nil_r. repeat split; assumption.
  - cbn [forallb] in Hall. apply andb_prop in Hall as [Hit Hall].
    unfold has_content in Hit.
    destruct (x_content it) as [c|] eqn:Hc; [|discriminate Hit].
    assert (Hk : lowerTrim (String.substring 0 100 c)
                 = content_key lowerTrim it)
      by (unfold content_key; now rewrite Hc).
    cbn zeta. rewrite Hk.
    replace (processed ++ it :: items) with ((processed ++ [it]) ++ items)
      by (now rewrite <- app_assoc).
    destruct (existsb (String.eqb (content_key lowerTrim it)) seen) eqn:Hex.
    + assert (Hin : In (content_key lowerTrim it)
                       (map (content_key lowerTrim) processed)).
      { apply Hseen. apply existsb_exists in Hex as (k & Hk' & Heq).
        apply String.eqb_eq in Heq. now subst k. }
      apply IH.
      * assumption.
      * intros k. rewrite Hseen, map_app, in_app_iff. cbn.
        split; [tauto|]. intros [H | [<- | []]]; assumption.
      * rewrite map_app. cbn [map]. rewrite first_keys_snoc.
        destruct (in_dec string_dec _ _); [assumption | contradiction].
      * intros x Hx. destruct (Hfirst x Hx) as (pre & post & -> & Hpre).
        exists pre, (post ++ [it]). split; [now rewrite <- app_assoc|].
        assumption.
    + assert (Hout : ~ In (content_key lowerTrim it)
                        (map (content_key lowerTrim) processed)).
      { intros Hin. apply Hseen in Hin.
        assert (existsb (String.eqb (content_key lowerTrim it)) seen = true)
          by (apply existsb_exists; eexists; split;
              [eassumption | apply String.eqb_refl]).
        congruence. }
      apply IH.
      * assumption.
      * intros k. rewrite map_app, in_app_iff. cbn. rewrite <- Hseen.
        intuition.
      * rewrite !map_app. cbn [map]. rewrite first_keys_snoc, Hkeys.
        destruct (in_dec string_dec _ _); [contradiction | reflexivity].
      * intros x Hx. apply in_app_or in Hx as [Hx | [<- | []]].
        -- destruct (Hfirst x Hx) as (pre & post & -> & Hpre).
           exists pre, (post ++ [it]). split; [now rewrite <- app_assoc|].
           assumption.
        -- exists processed, []. split; [reflexivity|].
           intros y Hy Heq. apply Hout. rewrite <- Heq. now apply in_map.
Qed.

Lemma removeDuplicates_loop_throws (lowerTrim : string -> string)
    (items : list Extraction) :
  forall seen unique,
    forallb has_content items = false ->
    removeDuplicates_loop lowerTrim items seen unique = Throw TypeError.
Proof.
  induction items as [|it items IH]; intros seen unique Hsome;
    cbn [removeDuplicates_loop forallb] in *.
  - discriminate Hsome.
  - unfold has_content in Hsome.
    destruct (x_content it) as [c|]; [|reflexivity].
    cbn [andb] in Hsome. cbn zeta.
    destruct (existsb _ seen); apply IH; assumption.
Qed.

(** X12.  [removeDuplicates] of the earlier server script reads
    [item.content.substring] of every element, unguarded.  When every
    element has a string content it returns, and keeps for every key
    exactly the first element that has it, in input order: the keys of
    the result are pairwise distinct and in order of first occurrence,
    and no element before a kept one has its key.  When some element has
    no string content it throws a [TypeError] and returns nothing.  This
    holds for any lower-casing and trimming of the key. *)
Theorem removeDuplicates_keeps_first_or_throws
    (lowerTrim : string -> string) (items : list Extraction) :
  (forallb has_content items = true ->
   exists out,
     removeDuplicates lowerTrim items = Ok out /\
     NoDup (map (content_key lowerTrim) out) /\
     map (content_key lowerTrim) out
     = first_keys (map (content_key lowerTrim) items) /\
     (forall x, In x out ->
        exists pre post,
          items = pre ++ x :: post /\
          forall y, In y pre ->
            content_key lowerTrim y <> content_key lowerTrim x)) /\
  (forallb has_content items = false ->
   removeDuplicates lowerTrim items = Throw TypeError).
Proof.
  unfold removeDuplicates. split.
  - intros Hall.
    destruct (removeDuplicates_loop_inv lowerTrim items [] [] [] Hall)
      as (out & Hrun & Hkeys & Hfirst); try easy.
    cbn [app] in Hkeys, Hfirst.
    exists out. split; [assumption|]. split; [|split; assumption].
    rewrite Hkeys. apply first_keys_NoDup.
  - apply removeDuplicates_loop_throws.
Qed.

Lemma removeDuplicates_keeps_first_or_throws_witness :
  (forallb has_content
     [extraction_set; extraction_power; extraction_set_again] = true /\
   exists out,
     removeDuplicates (fun s => s)
       [extraction_set; extraction_power; extraction_set_again] = Ok out /\
     map (content_key (fun s => s)) out
     = ["A set."; "Every set has a power set."]%string) /\
  (forallb has_content
     [extraction_set; extraction_bare; extraction_set_again] = false /\
   removeDuplicates (fun s => s)
     [extraction_set; extraction_bare; extraction_set_again]
   = Throw TypeError).
Proof.
  split.
  - split; [reflexivity|].
    destruct (proj1 (removeDuplicates_keeps_first_or_throws (fun s => s)
                       [extraction_set; extraction_power;
                        extraction_set_again]) eq_refl)
      as (out & Hrun & _ & Hkeys & _).
    exists out. split; [exact Hrun | exact Hkeys].
  - split; [reflexivity|].
    exact (proj2 (removeDuplicates_keeps_first_or_throws (fun s => s)
                    [extraction_set; extraction_bare;
                     extraction_set_again]) eq_refl).
Defined.

(** * Chunking *)

Lemma substring_zero (s : string) (n : nat) : String.substring n 0 s = ""%string.
Proof.
  revert n. induction s as [|c s IH]; intros [|n]; cbn; auto.
Qed.

Lemma substring_split (s : string) :
  forall n a b,
    String.substring n (a + b) s
    = (String.substring n a s ++ String.substring (n + a) b s)%string.
Proof.
  induction s as [|c s IH]; intros n a b.
  - destruct n, a, b; reflexivity.
  - destruct n as [|n].
    + destruct a as [|a]; cbn [Nat.add String.substring].
      * reflexivity.
      * cbn [String.append]. f_equal. apply (IH 0%nat a b).
    + cbn [Nat.add String.substring]. apply IH.
Qed.

Lemma substring_whole (s : string) :
  String.substring 0 (String.length s) s = s.
Proof.
  induction s as [|c s IH]; cbn; [reflexivity | now rewrite IH].
Qed.

Lemma substring_length (s : string) :
  forall n m,
    String.length (String.substring n m s)
    = Nat.min m (String.length s - n).
Proof.
  induction s as [|c s IH]; intros n m.
  - destruct n, m; reflexivity.
  - destruct n as [|n]; cbn [String.substring String.length Nat.sub].
    + destruct m as [|m]; cbn [String.length]; [reflexivity|].
      rewrite (IH 0%nat m), Nat.sub_0_r. reflexivity.
    + apply IH.
Qed.

Lemma append_empty_r (s : string) : (s ++ "")%string = s.
Proof.
  induction s as [|c s IH]; cbn; [reflexivity | now rewrite IH].
Qed.

Lemma concat_empty_cons (x : string) (xs : list string) :
  String.concat "" (x :: xs) = (x ++ String.concat "" xs)%string.
Proof.
  destruct xs as [|y xs]; cbn [String.concat]; [now rewrite append_empty_r|].
  reflexivity.
Qed.

Lemma js_substring_chunk (text : string) (n : nat) (chunkSize : Z) :
  (n < String.length text)%nat ->
  0 < chunkSize ->
  js_substring (Z.of_nat n) (Z.of_nat n + chunkSize) text
  = String.substring n (Nat.min (Z.to_nat chunkSize) (String.length text - n))
                     text.
Proof.
  intros Hn Hc. unfold js_substring. f_equal; lia.
Qed.

Lemma chunk_loop_spec (text : string) (chunkSize : Z) :
  0 < chunkSize ->
  forall (fuel n : nat) (chunks : list string),
    (String.length text - n <= fuel)%nat ->
    exists more,
      chunk_loop fuel text chunkSize (Z.of_nat n) chunks = Ok (chunks ++ more) /\
      String.concat "" more
      = String.substring n (String.length text - n) text /\
      Forall (fun c => (0 < String.length c)%nat /\
                       Z.of_nat (String.length c) <= chunkSize) more /\
      (forall pre c post,
         more = pre ++ c :: post -> post <> [] ->
         Z.of_nat (String.length c) = chunkSize) /\
      (more = [] <-> (String.length text <= n)%nat).
Proof.
  intros Hc. induction fuel as [|fuel IH]; intros n chunks Hfuel;
    cbn [chunk_loop];
    destruct (Z.of_nat n <? Z.of_nat (String.length text)) eqn:Hlt;
    try (apply Z.ltb_lt in Hlt; lia).
  1, 3: apply Z.ltb_ge in Hlt; exists []; rewrite app_nil_r;
    replace (String.length text - n)%nat with 0%nat by lia;
    rewrite substring_zero; repeat split; try constructor; try lia;
    intros pre c post H; destruct pre; discriminate.
  apply Z.ltb_lt in Hlt.
  assert (Hn : (n < String.length text)%nat) by lia.
  rewrite (js_substring_chunk text n chunkSize Hn Hc).
  set (a := Nat.min (Z.to_nat chunkSize) (String.length text - n)).
  replace (Z.of_nat n + chunkSize) with (Z.of_nat (n + Z.to_nat chunkSize))
    by lia.
  destruct (IH (n + Z.to_nat chunkSize)%nat
               (chunks ++ [String.substring n a text]))
    as (more & Hrun & Hcat & Hsize & Hfull & Hnil); [lia|].
  exists (String.substring n a text :: more).
  split; [now rewrite Hrun, <- app_assoc|]. split; [|split; [|split]].
  - rewrite concat_empty_cons, Hcat.
    replace (String.length text - n)%nat
      with (a + (String.length text - n - a))%nat by lia.
    rewrite substring_split. f_equal.
    destruct (Nat.le_gt_cases (Z.to_nat chunkSize) (String.length text - n))
      as [Hfullc | Hlast].
    + f_equal; lia.
    + replace (String.length text - (n + Z.to_nat chunkSize))%nat
        with 0%nat by lia.
      replace (String.length text - n - a)%nat with 0%nat by lia.
      now rewrite !substring_zero.
  - constructor; [|assumption]. rewrite substring_length. lia.
  - intros pre c post Hsplit Hpost. destruct pre as [|p pre].
    + injection Hsplit as <- <-. rewrite substring_length.
      assert (~ (String.length text <= n + Z.to_nat chunkSize)%nat)
        by (intros H; apply Hnil in H; contradiction).
      lia.
    + injection Hsplit as _ Hsplit. eapply Hfull; eassumption.
  - split; [discriminate | lia].
Qed.

Lemma chunk_loop_more_fuel (text : string) (chunkSize : Z) :
  forall (fuel : nat) (i : Z) (chunks r : list string),
    chunk_loop fuel text chunkSize i chunks = Ok r ->
    chunk_loop (S fuel) text chunkSize i chunks = Ok r.
Proof.
  induction fuel as [|fuel IH]; intros i chunks r.
  - cbn. destruct (i <? _); [discriminate | auto].
  - intros H. cbn [chunk_loop] in H.
    change (chunk_loop (S (S fuel)) text chunkSize i chunks)
      with (if i <? Z.of_nat (String.length text)
            then chunk_loop (S fuel) text chunkSize (i + chunkSize)
                   (chunks ++ [js_substring i (i + chunkSize) text])
            else Ok chunks).
    destruct (i <? _); [now apply IH | assumption].
Qed.

Lemma chunk_loop_fuel_le (text : string) (chunkSize : Z)
    (fuel fuel' : nat) (i : Z) (chunks r : list string) :
  (fuel <= fuel')%nat ->
  chunk_loop fuel text chunkSize i chunks = Ok r ->
  chunk_loop fuel' text chunkSize i chunks = Ok r.
Proof.
  induction 1 as [|fuel' Hle IH]; [auto|].
  intros H. now apply chunk_loop_more_fuel, IH.
Qed.

(** X13.  For a positive chunk size [chunkText] returns (the fuel
    [length text] is enough and more changes nothing), and the chunks are
    the text cut in order: joined together they give the text back,
    every chunk is non-empty and at most [chunkSize] long, and every
    chunk but the last is exactly [chunkSize] long.  The empty text gives
    no chunks. *)
Theorem chunkText_cuts_the_text (text : string) (chunkSize : Z) :
  0 < chunkSize ->
  exists chunks,
    chunkText text chunkSize = Ok chunks /\
    (forall fuel, (String.length text <= fuel)%nat ->
       chunk_loop fuel text chunkSize 0 [] = Ok chunks) /\
    String.concat "" chunks = text /\
    Forall (fun c => (0 < String.length c)%nat /\
                     Z.of_nat (String.length c) <= chunkSize) chunks /\
    (forall pre c post,
       chunks = pre ++ c :: post -> post <> [] ->
       Z.of_nat (String.length c) = chunkSize) /\
    (chunks = [] <-> text = ""%string).
Proof.
  intros Hc. unfold chunkText.
  destruct (chunk_loop_spec text chunkSize Hc (String.length text) 0 [])
    as (chunks & Hrun & Hcat & Hsize & Hfull & Hnil); [lia|].
  cbn [Z.of_nat app] in Hrun. exists chunks.
  split; [assumption|].
  split; [intros fuel Hfuel; now apply (chunk_loop_fuel_le _ _ _ _ _ _ _ Hfuel)|].
  split; [|split; [assumption | split; [assumption|]]].
  - rewrite Hcat, Nat.sub_0_r. apply substring_whole.
  - rewrite Hnil. destruct text; cbn; split; intros H;
      try reflexivity; try lia; discriminate.
Qed.

Lemma chunkText_cuts_the_text_witness :
  0 < 4 /\
  exists chunks,
    chunkText "Let x be real." 4 = Ok chunks /\
    String.concat "" chunks = "Let x be real."%string.
Proof.
  split; [lia|].
  destruct (chunkText_cuts_the_text "Let x be real." 4)
    as (chunks & Hrun & _ & Hcat & _); [lia|].
  exists chunks. split; [exact Hrun | exact Hcat].
Defined.

Lemma chunk_loop_never_returns (text : string) (chunkSize : Z) :
  chunkSize <= 0 ->
  forall (fuel : nat) (i : Z) (chunks : list string),
    i < Z.of_nat (String.length text) ->
    chunk_loop fuel text chunkSize i chunks = OutOfFuel.
Proof.
  intros Hc. induction fuel as [|fuel IH]; intros i chunks Hi;
    cbn [chunk_loop];
    replace (i <? Z.of_nat (String.length text)) with true
      by (symmetry; now apply Z.ltb_lt);
    [reflexivity|].
  apply IH. lia.
Qed.

(** X14.  For a chunk size of zero or less and a non-empty text the loop
    of [chunkText] never ends: the index never passes the end of the
    text, so no amount of fuel yields a result. *)
Theorem chunkText_hangs_on_nonpositive_size (text : string) (chunkSize : Z) :
  chunkSize <= 0 ->
  text <> ""%string ->
  forall fuel, chunk_loop fuel text chunkSize 0 [] = OutOfFuel.
Proof.
  intros Hc Htext fuel. apply chunk_loop_never_returns; [assumption|].
  destruct text; [contradiction | cbn; lia].
Qed.

Lemma chunkText_hangs_on_nonpositive_size_witness :
  (0 <= 0 /\ "x"%string <> ""%string) /\
  chunk_loop 1000 "x" 0 0 [] = OutOfFuel.
Proof.
  split; [split; [lia | discriminate] |].
  apply (chunkText_hangs_on_nonpositive_size "x" 0); [lia | discriminate].
Defined.

(** * Cards *)

Lemma build_cards_spec (toLowerCase : string -> string)
    (colorMap : JsMap string) (o : Options) (items : list Item) :
  forall i,
    let cards := build_cards toLowerCase colorMap o items i in
    length cards = length items /\
    map card_content cards = map i_content items /\
    map source_page cards = map i_page items /\
    (forall k card,
       nth_error cards k = Some card ->
       marginTop card
       = if (i + k =? 0)%nat then None else Some (blockSpacingPx o)).
Proof.
  induction items as [|item items IH]; intros i; cbn [build_cards].
  - repeat split. intros [|k] card; discriminate.
  - destruct (IH (S i)) as (Hlen & Hcontent & Hpage & Hmargin).
    cbn [length map]. split; [now rewrite Hlen|].
    split; [|split].
    + rewrite Hcontent. f_equal.
      destruct (0 <? i)%nat; cbn; unfold or_string;
        destruct (String.eqb_spec (i_content item) ""); congruence.
    + rewrite Hpage. f_equal. destruct (0 <? i)%nat; reflexivity.
    + intros [|k] card Hk; cbn [nth_error] in Hk.
      * injection Hk as <-. rewrite Nat.add_0_r.
        destruct i; reflexivity.
      * rewrite (Hmargin k card Hk).
        replace (i + S k)%nat with (S i + k)%nat by lia. reflexivity.
Qed.

(** X15.  [_buildContinuousDocument] makes one card per item, in input
    order; each card carries the content of its item character for
    character and its source page; the first card has no top margin and
    every later card has exactly [blockSpacingPx]. *)
Theorem cards_mirror_items (toLowerCase : string -> string)
    (colorMap : JsMap string) (o : Options) (items : list Item) :
  let cards := build_cards toLowerCase colorMap o items 0 in
  length cards = length items /\
  map card_content cards = map i_content items /\
  map source_page cards = map i_page items /\
  (forall k card,
     nth_error cards k = Some card ->
     marginTop card
     = if (k =? 0)%nat then None else Some (blockSpacingPx o)).
Proof.
  apply (build_cards_spec toLowerCase colorMap o items 0).
Qed.

Lemma append_inj_r (p a b : string) :
  (p ++ a)%string = (p ++ b)%string -> a = b.
Proof.
  induction p as [|c p IH]; cbn; [auto|]. intros [= H]. auto.
Qed.

Lemma decimal_inj (n m : nat) : decimal n = decimal m -> n = m.
Proof.
  unfold decimal. intros H.
  assert (Hu : Nat.to_uint n = Nat.to_uint m).
  { pose proof (DecimalString.NilEmpty.usu (Nat.to_uint n)) as Hn.
    pose proof (DecimalString.NilEmpty.usu (Nat.to_uint m)) as Hm.
    rewrite H in Hn. congruence. }
  rewrite <- (DecimalNat.Unsigned.of_to n), <- (DecimalNat.Unsigned.of_to m).
  now rewrite Hu.
Qed.

(** X16.  The title of a card is the item's own title when that is not
    empty.  When the item has no title, or an empty one, the title is
    the item's type, or "Item" when the type is empty, then a space, then
    the decimal numeral of the position counted from 1.  The title is
    never empty, and two untitled items of the same type at different
    positions never get the same title. *)
Theorem card_title_falls_back_to_position (toLowerCase : string -> string)
    (colorMap : JsMap string) (item : Item) (index : nat) :
  (forall t, i_title item = Some t -> t <> ""%string ->
     card_title (_buildItemCard toLowerCase colorMap item index) = t) /\
  (i_title item = None \/ i_title item = Some ""%string ->
   (i_type item <> ""%string ->
    card_title (_buildItemCard toLowerCase colorMap item index)
    = (i_type item ++ " "
       ++ DecimalString.NilEmpty.string_of_uint (Nat.to_uint (S index)))
      %string) /\
   (i_type item = ""%string ->
    card_title (_buildItemCard toLowerCase colorMap item index)
    = ("Item "
       ++ DecimalString.NilEmpty.string_of_uint (Nat.to_uint (S index)))
      %string)) /\
  card_title (_buildItemCard toLowerCase colorMap item index) <> ""%string /\
  (forall item' index',
     i_title item = None -> i_title item' = None ->
     i_type item' = i_type item ->
     card_title (_buildItemCard toLowerCase colorMap item index)
     = card_title (_buildItemCard toLowerCase colorMap item' index') ->
     index = index').
Proof.
  unfold _buildItemCard. cbn [card_title]. split; [|split; [|split]].
  - intros t -> Ht. unfold or_string at 1.
    destruct (String.eqb_spec t ""); [contradiction | reflexivity].
  - intros Htitle.
    assert (Hfall :
              match i_title item with
              | Some t =>
                  or_string t
                    (or_string (i_type item) "Item" ++ " "
                     ++ decimal (index + 1))
              | None =>
                  (or_string (i_type item) "Item" ++ " "
                   ++ decimal (index + 1))
              end%string
              = (or_string (i_type item) "Item" ++ " "
                 ++ decimal (index + 1))%string)
      by (destruct Htitle as [-> | ->]; reflexivity).
    rewrite Hfall. unfold decimal. rewrite Nat.add_1_r. split.
    + intros Htype. unfold or_string.
      destruct (String.eqb_spec (i_type item) ""); [contradiction|].
      reflexivity.
    + intros ->. reflexivity.
  - assert (Hgen : forall p n, (p ++ " " ++ decimal n)%string <> ""%string)
      by (intros [|c p] n; discriminate).
    destruct (i_title item) as [t|]; [|apply Hgen].
    unfold or_string at 1. destruct (String.eqb_spec t ""); [apply Hgen|].
    assumption.
  - intros item' index' -> -> -> H.
    apply append_inj_r, append_inj_r, decimal_inj in H. lia.
Qed.

Lemma card_title_falls_back_to_position_witness :
  (i_title one_item = None /\ i_type one_item <> ""%string) /\
  card_title (_buildItemCard (fun s => s) default_colorMap one_item 11)
  = "theorem 12"%string.
Proof.
  split; [split; [reflexivity | discriminate]|].
  exact (proj1 (proj1 (proj2 (card_title_falls_back_to_position
                                (fun s => s) default_colorMap one_item 11))
                      (or_introl eq_refl))
               ltac:(discriminate)).
Defined.

(** * Construction and the download button *)

(** X17.  Constructing a generator on a page without jsPDF throws
    "jsPDF is not loaded.", and on a page with jsPDF but without
    html2canvas it throws "html2canvas is not loaded."; either way the
    page is left untouched.  With both libraries the construction
    succeeds and leaves a render host in the page: the one the page
    already had, with the page unchanged, or else a fresh node appended
    once to the body.  Constructing again on the resulting page changes
    nothing and returns the same host: there is never a second host. *)
Theorem constructor_creates_one_host (p : Page) :
  (jsPDF_loaded p = false ->
   constructor p = (p, Throw (Error "jsPDF is not loaded."))) /\
  (jsPDF_loaded p = true -> html2canvas_loaded p = false ->
   constructor p = (p, Throw (Error "html2canvas is not loaded."))) /\
  (jsPDF_loaded p = true -> html2canvas_loaded p = true ->
   exists p' h,
     constructor p = (p', Ok h) /\
     hostElement p' = Some h /\
     constructor p' = (p', Ok h) /\
     (forall h0, hostElement p = Some h0 -> p' = p /\ h = h0) /\
     (hostElement p = None ->
      h = page_nextNode p /\
      bodyChildren p' = bodyChildren p ++ [h] /\
      page_nextNode p' = S h)).
Proof.
  unfold constructor. split; [|split].
  - intros ->. reflexivity.
  - intros -> ->. reflexivity.
  - intros Hj Hh. rewrite Hj, Hh. cbn [negb].
    destruct (hostElement p) as [h|] eqn:Hhost.
    + exists p, h. rewrite Hj, Hh, Hhost. cbn [negb].
      repeat split; congruence.
    + eexists _, _. split; [reflexivity|]. cbn.
      split; [reflexivity|]. split; [reflexivity|].
      split; [intros h0 H; discriminate H|].
      intros _. repeat split.
Qed.

Lemma constructor_creates_one_host_witness :
  (jsPDF_loaded page_without_jsPDF = false /\
   constructor page_without_jsPDF
   = (page_without_jsPDF, Throw (Error "jsPDF is not loaded."))) /\
  (jsPDF_loaded page_without_html2canvas = true /\
   html2canvas_loaded page_without_html2canvas = false /\
   constructor page_without_html2canvas
   = (page_without_html2canvas, Throw (Error "html2canvas is not loaded."))) /\
  (jsPDF_loaded ready_page = true /\
   html2canvas_loaded ready_page = true /\
   exists p' h,
     constructor ready_page = (p', Ok h) /\ hostElement p' = Some h).
Proof.
  split; [|split].
  - split; [reflexivity|].
    exact (proj1 (constructor_creates_one_host page_without_jsPDF) eq_refl).
  - split; [reflexivity|]. split; [reflexivity|].
    exact (proj1 (proj2 (constructor_creates_one_host
                           page_without_html2canvas)) eq_refl eq_refl).
  - split; [reflexivity|]. split; [reflexivity|].
    destruct (proj2 (proj2 (constructor_creates_one_host ready_page))
                eq_refl eq_refl) as (p' & h & Hrun & Hhost & _).
    exists p', h. split; assumption.
Defined.

(** X18.  Whatever happens in the click handler of the download button,
    the loading indicator is hidden when it is done.  If construction and
    generation succeed the error box is left as it was; if either fails,
    the box shows "Failed to generate PDF." whatever the error was, so
    also for an empty list, whose own message is never shown. *)
Theorem download_click_always_hides_loading (b : Browser)
    (extractedData : JsValue Item) (p : Page) (w : World) (u : Ui) :
  let u' := snd (onDownloadClick b extractedData (p, w, u)) in
  let succeeded :=
    match constructor p with
    | (_, Ok _) =>
        match snd (generatePDF b default_options extractedData w) with
        | Ok _ => true
        | _ => false
        end
    | _ => false
    end in
  loadingShown u' = false /\
  (if succeeded
   then errorShown u' = errorShown u /\ errorText u' = errorText u
   else errorShown u' = true /\
        errorText u' = "Failed to generate PDF."%string) /\
  (extractedData = Array [] ->
   errorShown u' = true /\ errorText u' = "Failed to generate PDF."%string).
Proof.
  unfold onDownloadClick.
  destruct (constructor p) as [p' [h| |]].
  - split; [|split].
    + destruct (generatePDF b default_options extractedData w)
        as [w' [[]| |]]; reflexivity.
    + destruct (generatePDF b default_options extractedData w)
        as [w' [[]| |]]; cbn; auto.
    + intros ->. cbn. auto.
  - cbn. auto.
  - cbn. auto.
Qed.

Lemma download_click_always_hides_loading_witness :
  errorText
    (snd (onDownloadClick good_browser (Array [])
            (mkPage true true None [] 0, empty_world,
             mkUi false "" true false "")))
  = "Failed to generate PDF."%string.
Proof.
  apply (download_click_always_hides_loading good_browser (Array [])
           (mkPage true true None [] 0) empty_world
           (mkUi false "" true false "")).
  reflexivity.
Defined.
